(** * pokemon_card_scraper.py: a shallow embedding and its properties

    The scraper is a Python class, [PokemonCardScraper], whose methods
    fetch pages with [requests], walk them with BeautifulSoup, download
    card images and write three metadata files.  The development below
    follows the file top-down:

    - [PyStr]        Python [str] values and the [str]/[re] operations the
                     scraper calls;
    - [Dom]          the part of a BeautifulSoup tree the scraper looks at;
    - [Runtime]      the effects: network, clock, file system, the two
                     accumulators, the lock, exceptions and interrupts;
    - [Scraper]      the methods of [PokemonCardScraper] and [main];
    - [Race]         the duplicate-filename loop of [download_image] run by
                     several pool workers, one system call at a time;
    - [Expect]       what the properties compare the scraper with, and the
                     sample pages and servers they are run on.

    The properties follow: the rules of the program logic ([Hoare],
    [Stable], [Store]), then one module of facts per method.

    Logging and the tqdm progress bar are display only (every use is
    guarded by [if self.progress_bar:] and changes no other variable);
    the log lines that announce a decision of the scraper are kept as
    events, the rest is left out. *)

From Stdlib Require Import NArith List Ascii String Decimal DecimalNat Lia.
From stdpp Require Import gmap list sorting.

Local Set Warnings "-register-all".

(* ===================================================================== *)
(** * Python strings *)
(* ===================================================================== *)

(** A Python [str] is a sequence of Unicode code points. *)
Abbreviation pystr := (list N).

(** [str.isalnum] and [str.isspace] above U+007F come from CPython's
    Unicode database, which is not part of the repository: they are taken
    as an interface.  Below U+0080 both are fixed by the language. *)
Class Unicode := {
  uni_isalnum : N -> bool;
  uni_isspace : N -> bool
}.

Module PyStr.
Local Open Scope N_scope.

(** Code points of an ASCII literal. *)
Definition u (s : string) : pystr :=
  List.map N_of_ascii (list_ascii_of_string s).

Definition ascii_isspace (c : N) : bool :=
  ((9 <=? c) && (c <=? 13)) || ((28 <=? c) && (c <=? 32)).

Definition ascii_isalnum (c : N) : bool :=
  ((48 <=? c) && (c <=? 57)) || ((65 <=? c) && (c <=? 90))
  || ((97 <=? c) && (c <=? 122)).

Section Classes.
Context {U : Unicode}.

(** [Py_UNICODE_ISSPACE]: what [str.strip()] removes and what [\s]
    matches in a [str] pattern. *)
Definition isspace (c : N) : bool :=
  if c <? 128 then ascii_isspace c else uni_isspace c.

(** [\w] in a [str] pattern: alphanumeric or the underscore. *)
Definition isword (c : N) : bool :=
  if c <? 128 then ascii_isalnum c || (c =? 95) else uni_isalnum c.

(** [s.lstrip()], [s.rstrip()], [s.strip()]. *)
Fixpoint lstrip (s : pystr) : pystr :=
  match s with
  | c :: s' => if isspace c then lstrip s' else s
  | [] => []
  end.

Definition rstrip (s : pystr) : pystr := rev (lstrip (rev s)).

Definition strip (s : pystr) : pystr := rstrip (lstrip s).

(** [re.sub(r'[^\w\s-]', '', s)]: every character outside the class
    is deleted. *)
Definition keep_name_char (c : N) : bool :=
  isword c || isspace c || (c =? 45).

Definition sub_non_name (s : pystr) : pystr := List.filter keep_name_char s.

(** [re.sub(r'[^\w-]', '', s)]. *)
Definition keep_code_char (c : N) : bool := isword c || (c =? 45).

Definition sub_non_code (s : pystr) : pystr := List.filter keep_code_char s.

(** The longest prefix of word characters, and what follows it. *)
Fixpoint word_run (s : pystr) : pystr * pystr :=
  match s with
  | c :: s' =>
      if isword c then let (r, t) := word_run s' in (c :: r, t)
      else ([], s)
  | [] => ([], [])
  end.

(** [re.search(r'#(\w+)', s)]: the scan tries every start position
    from the left; at a ['#'] the greedy [\w+] takes the whole run of
    word characters and needs at least one.  The result is group 1 of
    the first match. *)
Fixpoint search_hash_word (s : pystr) : option pystr :=
  match s with
  | [] => None
  | c :: s' =>
      if c =? 35 then
        match fst (word_run s') with
        | [] => search_hash_word s'
        | r => Some r
        end
      else search_hash_word s'
  end.
End Classes.

(** [re.search(r'\(([^)]+)\)$', s)].  At a start position the pattern
    needs ['('], then the greedy class [[^)]+] (the whole run up to the
    next [')'], at least one character; a shorter run is followed by a
    character that is not [')'], so backtracking finds nothing more),
    then [')'], then [$]: the end of the string, or a final line feed.
    The scan tries every start position from the left; the result is
    group 1 of the first match. *)
Fixpoint span_not_rparen (s : pystr) : pystr * pystr :=
  match s with
  | c :: s' =>
      if c =? 41 then ([], s)
      else let (b, t) := span_not_rparen s' in (c :: b, t)
  | [] => ([], [])
  end.

Definition at_dollar (s : pystr) : bool :=
  match s with
  | [] => true
  | [c] => c =? 10
  | _ => false
  end.

Definition match_paren_at (s : pystr) : option pystr :=
  match s with
  | c :: s' =>
      if c =? 40 then
        match span_not_rparen s' with
        | ((_ :: _) as b, _ :: t) => if at_dollar t then Some b else None
        | _ => None
        end
      else None
  | [] => None
  end.

Fixpoint search_paren (s : pystr) : option pystr :=
  match match_paren_at s with
  | Some b => Some b
  | None => match s with
            | [] => None
            | _ :: s' => search_paren s'
            end
  end.

(** [name.rfind('.')], and [PurePath.suffix] and [PurePath.stem] of a
    path's final component. *)
Fixpoint rfind (c : N) (s : pystr) : option nat :=
  match s with
  | [] => None
  | x :: s' =>
      match rfind c s' with
      | Some i => Some (S i)
      | None => if x =? c then Some 0%nat else None
      end
  end.

Definition suffix (name : pystr) : pystr :=
  match rfind 46 name with
  | Some i =>
      if (0 <? i)%nat && (i <? length name - 1)%nat then drop i name else []
  | None => []
  end.

Definition stem (name : pystr) : pystr :=
  match rfind 46 name with
  | Some i =>
      if (0 <? i)%nat && (i <? length name - 1)%nat then take i name else name
  | None => name
  end.

(** [s.split(sep)] for a one-character separator: never empty. *)
Fixpoint split (sep : N) (s : pystr) : list pystr :=
  match s with
  | [] => [[]]
  | c :: s' =>
      if c =? sep then [] :: split sep s'
      else match split sep s' with
           | p :: ps => (c :: p) :: ps
           | [] => [[c]]
           end
  end.

(** [s.replace(a, b)] for one-character [a] and [b]. *)
Definition replace (a b : N) (s : pystr) : pystr :=
  List.map (fun c => if c =? a then b else c) s.

(** [s.startswith(p)]. *)
Fixpoint startswith (p s : pystr) : bool :=
  match p, s with
  | [], _ => true
  | a :: p', b :: s' => (a =? b) && startswith p' s'
  | _ :: _, [] => false
  end.

(** [c in s] for a one-character [c]. *)
Definition contains (c : N) (s : pystr) : bool := existsb (N.eqb c) s.

(** [a == b]. *)
Definition eqb (a b : pystr) : bool := bool_decide (a = b).

(** [a < b] on [str]: lexicographic on code points. *)
Fixpoint ltb (a b : pystr) : bool :=
  match a, b with
  | [], [] => false
  | [], _ :: _ => true
  | _ :: _, [] => false
  | x :: a', y :: b' => (x <? y) || ((x =? y) && ltb a' b')
  end.

Definition leb (a b : pystr) : bool := negb (ltb b a).

(** [str(n)] for a non-negative [int]. *)
Fixpoint digits (d : Decimal.uint) : pystr :=
  match d with
  | Nil => []
  | D0 d => 48 :: digits d | D1 d => 49 :: digits d | D2 d => 50 :: digits d
  | D3 d => 51 :: digits d | D4 d => 52 :: digits d | D5 d => 53 :: digits d
  | D6 d => 54 :: digits d | D7 d => 55 :: digits d | D8 d => 56 :: digits d
  | D9 d => 57 :: digits d
  end.

Definition of_nat (n : nat) : pystr := digits (Nat.to_uint n).

(** [sep.join(parts)]. *)
Fixpoint join (sep : pystr) (parts : list pystr) : pystr :=
  match parts with
  | [] => []
  | [p] => p
  | p :: ps => p ++ sep ++ join sep ps
  end.

End PyStr.

(* ===================================================================== *)
(** * BeautifulSoup trees *)
(* ===================================================================== *)

Module Dom.
Import PyStr.
Local Open Scope N_scope.

(** A parsed document.  [classes] is the [class] attribute as
    BeautifulSoup stores it, split at white space; [attrs] holds the
    other attributes. *)
Inductive node :=
| Tag (name : pystr) (classes : list pystr) (attrs : list (pystr * pystr))
      (contents : list node)
| NavigableString (text : pystr).

(** [tag.descendants]: document order. *)
Fixpoint descendants (n : node) : list node :=
  match n with
  | Tag _ _ _ kids => flat_map (fun k => k :: descendants k) kids
  | NavigableString _ => []
  end.

Definition is_tag (nm : pystr) (n : node) : bool :=
  match n with
  | Tag nm' _ _ _ => eqb nm' nm
  | NavigableString _ => false
  end.

(** [class_=c]: one of the classes is [c], or the whole attribute is. *)
Definition has_class (c : pystr) (n : node) : bool :=
  match n with
  | Tag _ cls _ _ => existsb (eqb c) cls || eqb (join (u " ") cls) c
  | NavigableString _ => false
  end.

(** [tag.get(key)] and [tag.get(key, '')]. *)
Fixpoint lookup_attr (key : pystr) (l : list (pystr * pystr)) : option pystr :=
  match l with
  | [] => None
  | (k, v) :: l' => if eqb k key then Some v else lookup_attr key l'
  end.

Definition get (key : pystr) (n : node) : option pystr :=
  match n with
  | Tag _ _ attrs _ => lookup_attr key attrs
  | NavigableString _ => None
  end.

Definition get_default (key : pystr) (n : node) : pystr :=
  match get key n with Some v => v | None => [] end.

(** [tag.find_all(nm, class_=c)] and [tag.find(nm, class_=c)]. *)
Definition find_all_class (nm c : pystr) (n : node) : list node :=
  List.filter (fun d => is_tag nm d && has_class c d) (descendants n).

Definition find_class (nm c : pystr) (n : node) : option node :=
  head (find_all_class nm c n).

(** [tag.find_all(nm, href=True)]: the attribute is present. *)
Definition find_all_href (nm : pystr) (n : node) : list node :=
  List.filter
    (fun d => is_tag nm d && bool_decide (is_Some (get (u "href") d)))
    (descendants n).

(** [tag.get_text()]: the strings below the tag, concatenated. *)
Fixpoint get_text (n : node) : pystr :=
  match n with
  | Tag _ _ _ kids => concat (List.map get_text kids)
  | NavigableString t => t
  end.

End Dom.


(* ===================================================================== *)
(** * Effects *)
(* ===================================================================== *)

Module Runtime.
Import PyStr Dom.

(** The dictionaries the scraper passes around.  [local_path] and
    [filename] are the two keys [download_image] adds. *)
Record set_info := {
  url : pystr;
  name : pystr;
  code : pystr
}.

Record card := {
  pokemon_name : pystr;
  card_title : pystr;
  card_number : pystr;
  set_name : pystr;
  set_code : pystr;
  image_url : pystr;
  card_page_url : pystr;
  local_path : option pystr;
  filename : option pystr
}.

#[global] Instance set_info_eq_dec : EqDecision set_info.
Proof. solve_decision. Defined.

#[global] Instance card_eq_dec : EqDecision card.
Proof. solve_decision. Defined.

(** Exceptions.  [RequestException] and [OtherException] are instances
    of [Exception]; [KeyboardInterrupt] is not. *)
Inductive exn := KeyboardInterrupt | RequestException | OtherException.

Definition is_Exception (e : exn) : bool :=
  match e with KeyboardInterrupt => false | _ => true end.

(** What [session.get(url, timeout=30)] followed by
    [response.raise_for_status()] can do.  [soup] is the tree
    BeautifulSoup builds from [content]. *)
Record response := {
  content : list N;
  soup : node
}.

Inductive reply :=
| Respond (r : response)
| RequestFailed          (* transport error, timeout or 4xx/5xx status *)
| Crashed.               (* any other exception *)

(** [time.sleep] arguments: [2 ** attempt], the literal [0.1] and
    multiples of the [delay] option. *)
Inductive duration := Seconds (n : nat) | Tenth | Delay (times : nat).

Inductive message :=
| AttemptFailed (attempt : nat) (url : pystr)
| FailedToGet (url : pystr) (retries : nat)
| NoSetLinksFound
| NoCardsFoundToDownload
| NoCardsFoundIn (set_name : pystr)
| ErrorCounting (set_name : pystr)
| ErrorDownloading (card_title : pystr)
| ThreadError (card_title : pystr)
| InterruptedByUser
| UnexpectedError.

Inductive event :=
| Get (url : pystr)
| Sleep (d : duration)
| Acquire
| Release
| AppendDownloaded (c : card)
| AppendFailed (c : card)
| WriteImage (file : pystr)
| WriteMetadata (file : pystr)
| Log (m : message).

(** [metadata/cards_metadata.json], before [json.dump]. *)
Record metadata_json := {
  total_cards : nat;
  total_failed : nat;
  cards : list card;
  failed : list card
}.

(** The state a run reads and writes.  [images] are the file names
    under [download_dir/images]; the three [option]s are the files under
    [download_dir/metadata], each a list of the strings written to it.
    [fuse] counts the effects left before Ctrl-C arrives ([None]: it
    does not arrive). *)
Record world := {
  requests : nat;
  events : list event;
  downloaded_cards : list card;
  failed_downloads : list card;
  total_cards_expected : nat;
  images : gset pystr;
  cards_metadata_json : option metadata_json;
  pokemon_classes_txt : option (list pystr);
  download_summary_txt : option (list pystr);
  fuse : option nat
}.

(** The outside: the reply to the [n]-th request of the run, and
    whether a file of the images directory can be written. *)
Inductive write_outcome :=
| Written
| OpenFailed             (* [open] raises: no file is created *)
| WriteFailed.           (* [f.write] raises: the file is there *)

Record env := {
  net : nat -> pystr -> reply;
  writable : pystr -> write_outcome
}.

Definition set_fuse (f : option nat) (w : world) : world :=
  {| requests := requests w; events := events w;
     downloaded_cards := downloaded_cards w;
     failed_downloads := failed_downloads w;
     total_cards_expected := total_cards_expected w; images := images w;
     cards_metadata_json := cards_metadata_json w;
     pokemon_classes_txt := pokemon_classes_txt w;
     download_summary_txt := download_summary_txt w; fuse := f |}.

Definition add_event (e : event) (w : world) : world :=
  {| requests := requests w; events := events w ++ [e];
     downloaded_cards := downloaded_cards w;
     failed_downloads := failed_downloads w;
     total_cards_expected := total_cards_expected w; images := images w;
     cards_metadata_json := cards_metadata_json w;
     pokemon_classes_txt := pokemon_classes_txt w;
     download_summary_txt := download_summary_txt w; fuse := fuse w |}.

Definition count_request (w : world) : world :=
  {| requests := S (requests w); events := events w;
     downloaded_cards := downloaded_cards w;
     failed_downloads := failed_downloads w;
     total_cards_expected := total_cards_expected w; images := images w;
     cards_metadata_json := cards_metadata_json w;
     pokemon_classes_txt := pokemon_classes_txt w;
     download_summary_txt := download_summary_txt w; fuse := fuse w |}.

Definition push_downloaded (c : card) (w : world) : world :=
  {| requests := requests w; events := events w;
     downloaded_cards := downloaded_cards w ++ [c];
     failed_downloads := failed_downloads w;
     total_cards_expected := total_cards_expected w; images := images w;
     cards_metadata_json := cards_metadata_json w;
     pokemon_classes_txt := pokemon_classes_txt w;
     download_summary_txt := download_summary_txt w; fuse := fuse w |}.

Definition push_failed (c : card) (w : world) : world :=
  {| requests := requests w; events := events w;
     downloaded_cards := downloaded_cards w;
     failed_downloads := failed_downloads w ++ [c];
     total_cards_expected := total_cards_expected w; images := images w;
     cards_metadata_json := cards_metadata_json w;
     pokemon_classes_txt := pokemon_classes_txt w;
     download_summary_txt := download_summary_txt w; fuse := fuse w |}.

Definition set_expected (n : nat) (w : world) : world :=
  {| requests := requests w; events := events w;
     downloaded_cards := downloaded_cards w;
     failed_downloads := failed_downloads w;
     total_cards_expected := n; images := images w;
     cards_metadata_json := cards_metadata_json w;
     pokemon_classes_txt := pokemon_classes_txt w;
     download_summary_txt := download_summary_txt w; fuse := fuse w |}.

Definition add_image (f : pystr) (w : world) : world :=
  {| requests := requests w; events := events w;
     downloaded_cards := downloaded_cards w;
     failed_downloads := failed_downloads w;
     total_cards_expected := total_cards_expected w;
     images := {[f]} ∪ images w;
     cards_metadata_json := cards_metadata_json w;
     pokemon_classes_txt := pokemon_classes_txt w;
     download_summary_txt := download_summary_txt w; fuse := fuse w |}.

Definition put_json (j : metadata_json) (w : world) : world :=
  {| requests := requests w; events := events w;
     downloaded_cards := downloaded_cards w;
     failed_downloads := failed_downloads w;
     total_cards_expected := total_cards_expected w; images := images w;
     cards_metadata_json := Some j;
     pokemon_classes_txt := pokemon_classes_txt w;
     download_summary_txt := download_summary_txt w; fuse := fuse w |}.

Definition put_classes (l : list pystr) (w : world) : world :=
  {| requests := requests w; events := events w;
     downloaded_cards := downloaded_cards w;
     failed_downloads := failed_downloads w;
     total_cards_expected := total_cards_expected w; images := images w;
     cards_metadata_json := cards_metadata_json w;
     pokemon_classes_txt := Some l;
     download_summary_txt := download_summary_txt w; fuse := fuse w |}.

Definition put_summary (l : list pystr) (w : world) : world :=
  {| requests := requests w; events := events w;
     downloaded_cards := downloaded_cards w;
     failed_downloads := failed_downloads w;
     total_cards_expected := total_cards_expected w; images := images w;
     cards_metadata_json := cards_metadata_json w;
     pokemon_classes_txt := pokemon_classes_txt w;
     download_summary_txt := Some l; fuse := fuse w |}.

(** [n] more requests and the events [evs], nothing else. *)
Definition advance (n : nat) (evs : list event) (w : world) : world :=
  {| requests := requests w + n; events := events w ++ evs;
     downloaded_cards := downloaded_cards w;
     failed_downloads := failed_downloads w;
     total_cards_expected := total_cards_expected w; images := images w;
     cards_metadata_json := cards_metadata_json w;
     pokemon_classes_txt := pokemon_classes_txt w;
     download_summary_txt := download_summary_txt w; fuse := fuse w |}.

(** ** The monad: state, exceptions *)

Inductive result (A : Type) :=
| Returned (a : A)
| Raised (e : exn).
Arguments Returned {A} a.
Arguments Raised {A} e.

Definition M (A : Type) : Type := world -> result A * world.

Definition ret {A} (a : A) : M A := fun w => (Returned a, w).

Definition bind {A B} (m : M A) (k : A -> M B) : M B :=
  fun w => match m w with
           | (Returned a, w') => k a w'
           | (Raised e, w') => (Raised e, w')
           end.

Definition raise {A} (e : exn) : M A := fun w => (Raised e, w).

(** [try: m  except <those e with catch e>: handler]. *)
Definition try_except {A} (m : M A) (catch : exn -> bool) (handler : M A) : M A :=
  fun w => match m w with
           | (Raised e, w') => if catch e then handler w' else (Raised e, w')
           | r => r
           end.

(** [try: m  finally: f], for an [f] that does not raise. *)
Definition finally {A} (m : M A) (f : world -> world) : M A :=
  fun w => let (r, w') := m w in (r, f w').

Definition gets {A} (f : world -> A) : M A := fun w => (Returned (f w), w).

Definition modify (f : world -> world) : M unit := fun w => (Returned tt, f w).

(** Ctrl-C is delivered between two effects of the main thread. *)
Definition tick : M unit :=
  fun w => match fuse w with
           | Some 0 => (Raised KeyboardInterrupt, set_fuse None w)
           | Some (S n) => (Returned tt, set_fuse (Some n) w)
           | None => (Returned tt, w)
           end.

(** ** Invariants *)

(** [m] started in a world where [P] holds ends in a world where [Q]
    holds of its value, or raises [e] in a world where [X e] holds. *)
Definition triple {A} (P : world -> Prop) (m : M A)
    (Q : A -> world -> Prop) (X : exn -> world -> Prop) : Prop :=
  forall w, P w ->
    match m w with
    | (Returned a, w') => Q a w'
    | (Raised e, w') => X e w'
    end.

(** [P] does not look at the clock, the log or the request counter. *)
Definition blind (P : world -> Prop) : Prop :=
  (forall f w, P w -> P (set_fuse f w))
  /\ (forall ev w, P w -> P (add_event ev w))
  /\ (forall w, P w -> P (count_request w)).

(** An invariant [I] with the exceptional postcondition [X] that goes
    with it: both are blind to the request counter and the event log,
    [X] holds when an exception leaves a world of [I], and [I] holds
    again when an [except] clause has caught it. *)
Class stable (I : world -> Prop) (X : exn -> world -> Prop) := {
  stable_caught : forall e w, is_Exception e = true -> X e w -> I w;
  stable_tick : triple I tick (fun _ => I) X;
  stable_error : forall e w, is_Exception e = true -> I w -> X e w;
  stable_event : forall ev w, I w -> I (add_event ev w);
  stable_event_exn : forall e ev w, X e w -> X e (add_event ev w);
  stable_request : forall w, I w -> I (count_request w);
  stable_expected : forall n w, I w -> I (set_expected n w)
}.

(** [m] keeps [I] when it returns and ends in [X] when it raises. *)
Definition safe (I : world -> Prop) (X : exn -> world -> Prop) {A} (m : M A) :=
  triple I m (fun _ => I) X.

(** An invariant that the writes of a run keep. *)
Class stable_store (I : world -> Prop) := {
  store_failed : forall c w, I w -> I (push_failed c w);
  store_downloaded : forall c w, I w -> I (push_downloaded c w);
  store_image : forall f w, I w -> I (add_image f w);
  store_json : forall j w, I w -> I (put_json j w);
  store_classes : forall l w, I w -> I (put_classes l w);
  store_summary : forall l w, I w -> I (put_summary l w)
}.

End Runtime.


(* ===================================================================== *)
(** * class PokemonCardScraper *)
(* ===================================================================== *)

Module Scraper.
Import PyStr Dom Runtime.

Declare Scope py_scope.
Delimit Scope py_scope with py.
Notation "'let*' x := m 'in' k" := (bind m (fun x => k))
  (at level 10, x name, m at level 100, k at level 200) : py_scope.
Notation "'let*' ' p := m 'in' k" := (bind m (fun x => let 'p := x in k))
  (at level 10, p strict pattern, m at level 100, k at level 200) : py_scope.
Notation "m >> k" := (bind m (fun _ => k))
  (at level 90, right associativity) : py_scope.
Local Open Scope py_scope.

Definition base_url : pystr := u "https://pkmncards.com/sets/".

Section Methods.
Context {U : Unicode} (E : env).

(** ** Primitive effects *)

(** [self.session.get(url, timeout=30)] and [raise_for_status()]. *)
Definition session_get (url : pystr) : M response :=
  tick >>
  fun w =>
    let w' := add_event (Get url) (count_request w) in
    match net E (requests w) url with
    | Respond r => (Returned r, w')
    | RequestFailed => (Raised RequestException, w')
    | Crashed => (Raised OtherException, w')
    end.

Definition step (e : event) : M unit := tick >> modify (add_event e).

Definition sleep (d : duration) : M unit := step (Sleep d).

Definition log (m : message) : M unit := modify (add_event (Log m)).

(** [with self.lock: m]: the lock is released however [m] ends. *)
Definition with_lock {A} (m : M A) : M A :=
  step Acquire >> finally m (add_event Release).

Definition append_downloaded (c : card) : M unit :=
  step (AppendDownloaded c) >> modify (push_downloaded c).

Definition append_failed (c : card) : M unit :=
  step (AppendFailed c) >> modify (push_failed c).

(** ** get_page_content *)

(** One turn of [for attempt in range(retries)]: [Some v] when the
    body executes [return v], [None] when the loop goes on. *)
Definition get_page_attempt (url : pystr) (retries attempt : nat)
  : M (option (option response)) :=
  try_except
    (let* response := session_get url in ret (Some (Some response)))
    (fun e => match e with RequestException => true | _ => false end)
    (log (AttemptFailed (attempt + 1) url) >>
     if (attempt <? retries - 1)%nat then
       sleep (Seconds (2 ^ attempt)) >> ret None
     else
       log (FailedToGet url retries) >> ret (Some None)).

Fixpoint get_page_loop (url : pystr) (retries : nat) (range : list nat)
  : M (option response) :=
  match range with
  | [] => ret None
  | attempt :: range' =>
      let* r := get_page_attempt url retries attempt in
      match r with
      | Some v => ret v
      | None => get_page_loop url retries range'
      end
  end.

Definition get_page_content_retries (url : pystr) (retries : nat)
  : M (option response) :=
  get_page_loop url retries (seq 0 retries).

(** Every call of the file leaves [retries] at its default. *)
Definition get_page_content (url : pystr) : M (option response) :=
  get_page_content_retries url 3.

(** ** extract_set_code, extract_set_links *)

Definition extract_set_code (set_name : pystr) : pystr :=
  match search_paren (strip set_name) with
  | Some group1 => group1
  | None => u "UNKNOWN"
  end.

Definition nonempty (s : pystr) : bool :=
  match s with [] => false | _ => true end.

Definition set_url_prefix : pystr := u "https://pkmncards.com/set/".

(** The body of [for link in soup.find_all('a', href=True)]: what it
    appends to [set_links]. *)
Definition set_link_of (link : node) : list set_info :=
  match get (u "href") link with
  | Some href =>
      let text := strip (get_text link) in
      if nonempty href && startswith set_url_prefix href
         && nonempty text && contains 40 text && contains 41 text
      then [ {| url := href; name := text; code := extract_set_code text |} ]
      else []
  | None => []
  end.

(** The "Remove duplicates" loop, with its [seen_urls]. *)
Fixpoint unique_links (seen_urls : gset pystr) (set_links : list set_info)
  : list set_info :=
  match set_links with
  | [] => []
  | link :: rest =>
      if bool_decide (url link ∈ seen_urls) then unique_links seen_urls rest
      else link :: unique_links ({[url link]} ∪ seen_urls) rest
  end.

Definition set_links_of_soup (s : node) : list set_info :=
  unique_links ∅ (flat_map set_link_of (find_all_href (u "a") s)).

Definition extract_set_links : M (list set_info) :=
  let* response := get_page_content base_url in
  match response with
  | None => ret []
  | Some r => ret (set_links_of_soup (soup r))
  end.

(** ** parse_card_title *)

Definition parse_card_title (title : pystr) : pystr * pystr :=
  let parts := split 183 title in
  let pokemon_name :=
    match parts with
    | p :: _ => strip p
    | [] => u "Unknown"
    end in
  let card_number :=
    match search_hash_word title with
    | Some group1 => group1
    | None => u "0"
    end in
  let pokemon_name := strip (sub_non_name pokemon_name) in
  (pokemon_name, card_number).

(** ** count_cards_in_set, get_card_images_from_set *)

Definition card_articles (s : node) : list node :=
  find_all_class (u "article") (u "type-pkmn_card entry") s.

(** The body of the counting loop: the new value of [valid_cards]. *)
Definition count_article (valid_cards : nat) (article : node) : nat :=
  match find_class (u "a") (u "card-image-link") article with
  | None => valid_cards
  | Some card_link =>
      match find_class (u "img") (u "card-image") card_link with
      | None => valid_cards
      | Some img_tag =>
          let img_url := get_default (u "src") img_tag in
          if nonempty img_url then (valid_cards + 1)%nat else valid_cards
      end
  end.

Definition count_cards_in_set (set_url : pystr) (si : set_info) : M nat :=
  let* response := get_page_content set_url in
  match response with
  | None => ret 0%nat
  | Some r => ret (fold_left count_article (card_articles (soup r)) 0%nat)
  end.

(** The body of the scanning loop: the new value of [cards]. *)
Definition scan_article (si : set_info) (cards : list card) (article : node)
  : list card :=
  match find_class (u "a") (u "card-image-link") article with
  | None => cards
  | Some card_link =>
      let title := get_default (u "title") card_link in
      let page_url := get_default (u "href") card_link in
      match find_class (u "img") (u "card-image") card_link with
      | None => cards
      | Some img_tag =>
          let img_url := get_default (u "src") img_tag in
          if nonempty img_url then
            let '(name_, number) := parse_card_title title in
            cards ++ [ {| pokemon_name := name_; card_title := title;
                          card_number := number; set_name := name si;
                          set_code := code si; image_url := img_url;
                          card_page_url := page_url;
                          local_path := None; filename := None |} ]
          else cards
      end
  end.

Definition get_card_images_from_set (set_url : pystr) (si : set_info)
  : M (list card) :=
  let* response := get_page_content set_url in
  match response with
  | None => ret []
  | Some r => ret (fold_left (scan_article si) (card_articles (soup r)) [])
  end.

(** ** download_image *)

(** The file name [download_image] builds from a card. *)
Definition image_filename (card_info : card) : pystr :=
  let safe_pokemon_name :=
    replace 32 95 (sub_non_name (pokemon_name card_info)) in
  let safe_set_code := sub_non_code (set_code card_info) in
  safe_pokemon_name ++ u "_" ++ safe_set_code ++ u "_"
    ++ card_number card_info ++ u ".jpg".

(** [original_filepath.parent / f"{name_part}_{counter}{extension}"],
    as a name in the images directory. *)
Definition numbered (original_filepath : pystr) (counter : nat) : pystr :=
  stem original_filepath ++ u "_" ++ of_nat counter
    ++ suffix original_filepath.

(** The loop [while filepath.exists(): ...] over the directory [fs],
    for at most [fuel] turns. *)
Fixpoint probe (fuel : nat) (fs : gset pystr)
    (original_filepath filepath : pystr) (counter : nat) : option pystr :=
  match fuel with
  | O => None
  | S fuel' =>
      if bool_decide (filepath ∈ fs) then
        probe fuel' fs original_filepath
              (numbered original_filepath counter) (S counter)
      else Some filepath
  end.

(** One turn more than the directory has files is enough
    ([FilenameFacts.probe_enough]); the default is never used. *)
Definition unique_path (fs : gset pystr) (original_filepath : pystr) : pystr :=
  match probe (S (size fs)) fs original_filepath original_filepath 1 with
  | Some filepath => filepath
  | None => original_filepath
  end.

(** [with open(filepath, 'wb') as f: f.write(response.content)]. *)
Definition write_image (filepath : pystr) : M unit :=
  tick >>
  match writable E filepath with
  | Written => modify (fun w => add_event (WriteImage filepath) (add_image filepath w))
  | WriteFailed => modify (add_image filepath) >> raise OtherException
  | OpenFailed => raise OtherException
  end.

Definition with_local_path (card_info : card) (filepath : pystr) : card :=
  {| pokemon_name := pokemon_name card_info;
     card_title := card_title card_info;
     card_number := card_number card_info;
     set_name := set_name card_info;
     set_code := set_code card_info;
     image_url := image_url card_info;
     card_page_url := card_page_url card_info;
     local_path := Some (u "images/" ++ filepath);
     filename := Some filepath |}.

(** No statement of the [try] block that can raise an [Exception]
    comes after the two assignments to [card_info], so the handler
    appends the dictionary as the caller passed it. *)
Definition download_image (card_info : card) : M bool :=
  try_except
    (let* response := get_page_content (image_url card_info) in
     match response with
     | None => append_failed card_info >> ret false
     | Some r =>
         let filename := image_filename card_info in
         let* filepath := gets (fun w => unique_path (images w) filename) in
         write_image filepath >>
         let card_info := with_local_path card_info filepath in
         with_lock (append_downloaded card_info) >>
         ret true
     end)
    is_Exception
    (log (ErrorDownloading (card_title card_info)) >>
     with_lock (append_failed card_info) >>
     ret false).

(** ** save_metadata *)

Definition str_le (a b : pystr) : Prop := leb a b = true.

#[global] Instance str_le_dec a b : Decision (str_le a b).
Proof. unfold str_le. apply _. Defined.

(** [list(set(card['pokemon_name'] for card in ...))] and [.sort()]. *)
Definition pokemon_names_of (downloaded : list card) : list pystr :=
  merge_sort str_le
    (elements (list_to_set (List.map pokemon_name downloaded) : gset pystr)).

Definition class_line (i : nat) (name_ : pystr) : pystr :=
  of_nat i ++ u ": " ++ name_ ++ [10%N].

(** The "Group by set" loop. *)
Definition count_set (sets : gmap pystr nat) (c : card) : gmap pystr nat :=
  let set_name := set_name c in
  let sets := if bool_decide (set_name ∈ dom sets) then sets
              else <[set_name := 0]> sets in
  <[set_name := (sets !!! set_name + 1)]> sets.

Definition sets_of (downloaded : list card) : gmap pystr nat :=
  fold_left count_set downloaded ∅.

(** [<=] on the tuples of [sets.items()]. *)
Definition item_le (a b : pystr * nat) : Prop :=
  (ltb a.1 b.1 || (eqb a.1 b.1 && (a.2 <=? b.2)%nat)) = true.

#[global] Instance item_le_dec a b : Decision (item_le a b).
Proof. unfold item_le. apply _. Defined.

Definition sorted_items (sets : gmap pystr nat) : list (pystr * nat) :=
  merge_sort item_le (map_to_list sets).

Definition set_line (item : pystr * nat) : pystr :=
  u "  " ++ item.1 ++ u ": " ++ of_nat item.2 ++ u " cards" ++ [10%N].

Definition json_of (downloaded failed_ : list card) : metadata_json :=
  {| total_cards := length downloaded; total_failed := length failed_;
     cards := downloaded; failed := failed_ |}.

Definition classes_of (downloaded : list card) : list pystr :=
  imap class_line (pokemon_names_of downloaded).

Definition summary_of (downloaded failed_ : list card) : list pystr :=
  [ u "Pokemon Card Download Summary" ++ [10%N];
    u "============================" ++ [10%N; 10%N];
    u "Total cards downloaded: " ++ of_nat (length downloaded) ++ [10%N];
    u "Total failed downloads: " ++ of_nat (length failed_) ++ [10%N];
    u "Unique Pokemon: " ++ of_nat (length (pokemon_names_of downloaded))
      ++ [10%N; 10%N];
    u "Cards by Set:" ++ [10%N] ]
  ++ List.map set_line (sorted_items (sets_of downloaded)).

Definition save_metadata : M unit :=
  let* downloaded := gets downloaded_cards in
  let* failed_ := gets failed_downloads in
  tick >> modify (put_json (json_of downloaded failed_)) >>
  modify (add_event (WriteMetadata (u "cards_metadata.json"))) >>
  tick >> modify (put_classes (classes_of downloaded)) >>
  modify (add_event (WriteMetadata (u "pokemon_classes.txt"))) >>
  tick >> modify (put_summary (summary_of downloaded failed_)) >>
  modify (add_event (WriteMetadata (u "download_summary.txt"))).

(** ** count_total_cards *)

(** One turn of [for set_info in set_links], on the two local
    variables.  Only [count_cards_in_set], the first statement of the
    [try] block, can raise an [Exception]: the handler finds both
    variables as the turn found them. *)
Definition count_one (acc : nat * list (set_info * nat)) (si : set_info)
  : M (nat * list (set_info * nat)) :=
  let '(total_count, set_counts) := acc in
  try_except
    (let* count := count_cards_in_set (url si) si in
     let total_count := (total_count + count)%nat in
     let set_counts := set_counts ++ [(si, count)] in
     sleep Tenth >>
     ret (total_count, set_counts))
    is_Exception
    (log (ErrorCounting (name si)) >>
     ret (total_count, set_counts ++ [(si, 0%nat)])).

Fixpoint count_loop (acc : nat * list (set_info * nat))
    (set_links : list set_info) : M (nat * list (set_info * nat)) :=
  match set_links with
  | [] => ret acc
  | si :: rest => let* acc' := count_one acc si in count_loop acc' rest
  end.

Definition count_total_cards : M (nat * list (set_info * nat)) :=
  let* set_links := extract_set_links in
  match set_links with
  | [] => log NoSetLinksFound >> ret (0%nat, [])
  | _ => count_loop (0%nat, []) set_links
  end.

(** ** download_cards_parallel *)

(** A pool worker runs [m] to its end: Ctrl-C is delivered to the main
    thread only, which waits for the pool ([ThreadPoolExecutor.__exit__])
    before the interrupt travels on.  The workers of a batch are taken
    one after the other, in submission order; what two of them can do to
    each other between two system calls is the subject of [Race]. *)
Definition in_worker {A} (m : M A) : M (result A) :=
  fun w => let (r, w') := m (set_fuse None w) in
           (Returned r, set_fuse (fuse w) w').

Definition collect_future (c : card) : M unit :=
  let* r := in_worker (download_image c) in
  match r with
  | Returned success => ret tt
  | Raised e =>
      if is_Exception e then
        log (ThreadError (card_title c)) >> with_lock (append_failed c)
      else raise e
  end.

Fixpoint for_each {A} (body : A -> M unit) (l : list A) : M unit :=
  match l with
  | [] => ret tt
  | x :: l' => body x >> for_each body l'
  end.

Definition download_cards_parallel (cards : list card) (max_workers : nat)
  : M unit :=
  for_each collect_future cards.

(** ** scrape_all_cards *)

(** The head of [scrape_all_cards], up to the progress bar: [None]
    when it executes [return], the value of [set_counts] otherwise. *)
Definition discover (skip_count : bool) : M (option (list (set_info * nat))) :=
  if negb skip_count then
    let* '(total, set_counts) := count_total_cards in
    modify (set_expected total) >>
    if (total =? 0)%nat then log NoCardsFoundToDownload >> ret None
    else ret (Some set_counts)
  else
    let* set_links := extract_set_links in
    match set_links with
    | [] => log NoSetLinksFound >> ret None
    | _ =>
        let set_counts := List.map (fun si => (si, 0%nat)) set_links in
        modify (set_expected 0) >> ret (Some set_counts)
    end.

Definition download_batch (parallel : bool) (max_workers : nat)
    (cards : list card) : M unit :=
  if parallel && (1 <? length cards)%nat then
    download_cards_parallel cards max_workers >> sleep (Delay 5)
  else
    for_each (fun c => download_image c >> sleep (Delay 1)) cards.

(** The body of [for i, (set_info, expected_count) in ...]. *)
Definition process_set (parallel : bool) (max_workers : nat)
    (entry : set_info * nat) : M unit :=
  let '(si, expected_count) := entry in
  let* cards := get_card_images_from_set (url si) si in
  match cards with
  | [] => log (NoCardsFoundIn (name si))
  | _ =>
      download_batch parallel max_workers cards >>
      save_metadata >>
      sleep (Delay 2)
  end.

Definition scrape_all_cards (parallel : bool) (max_workers : nat)
    (skip_count : bool) : M unit :=
  let* d := discover skip_count in
  match d with
  | None => ret tt
  | Some set_counts =>
      for_each (process_set parallel max_workers) set_counts >>
      save_metadata
  end.

(** ** main *)

Definition main (parallel : bool) (workers : nat) (skip_count : bool) : M unit :=
  fun w =>
    match scrape_all_cards parallel workers skip_count w with
    | (Raised KeyboardInterrupt, w') =>
        (log InterruptedByUser >> save_metadata) w'
    | (Raised _, w') =>
        (log UnexpectedError >> save_metadata) w'
    | r => r
    end.

End Methods.

(** [PokemonCardScraper()]: both accumulators empty; the output tree
    holds whatever an earlier run left there. *)
Definition new_scraper (images_ : gset pystr) (json : option metadata_json)
    (classes summary : option (list pystr)) (fuse_ : option nat) : world :=
  {| requests := 0; events := [];
     downloaded_cards := []; failed_downloads := [];
     total_cards_expected := 0; images := images_;
     cards_metadata_json := json; pokemon_classes_txt := classes;
     download_summary_txt := summary; fuse := fuse_ |}.

End Scraper.


(* ===================================================================== *)
(** * The duplicate-filename loop under a thread pool *)
(* ===================================================================== *)

(** [download_cards_parallel] hands [download_image] to the workers of a
    [ThreadPoolExecutor].  Between [filepath.exists()] and
    [open(filepath, 'wb')] a worker holds no lock, and each of the two is
    a system call around which the interpreter switches threads.  A
    worker is followed here from the line [counter = 1] to the append to
    [downloaded_cards], one system call per step. *)
Module Race.
Import PyStr Runtime Scraper.

Inductive pc := AtExists | AtOpen | Finished.

Record worker := {
  at_ : pc;
  original_filepath : pystr;
  filepath : pystr;
  counter : nat
}.

(** What the workers share: the images directory and the [local_path]
    values appended to [downloaded_cards] (relative to the directory). *)
Record shared := {
  dir : gset pystr;
  written : list pystr
}.

(** The worker of a card whose file name is [filename]. *)
Definition start (filename : pystr) : worker :=
  {| at_ := AtExists; original_filepath := filename;
     filepath := filename; counter := 1 |}.

Definition step_worker (s : shared) (t : worker) : shared * worker :=
  match at_ t with
  | AtExists =>
      if bool_decide (filepath t ∈ dir s) then
        (s, {| at_ := AtExists;
               original_filepath := original_filepath t;
               filepath := numbered (original_filepath t) (counter t);
               counter := S (counter t) |})
      else
        (s, {| at_ := AtOpen;
               original_filepath := original_filepath t;
               filepath := filepath t; counter := counter t |})
  | AtOpen =>
      ({| dir := {[filepath t]} ∪ dir s;
          written := written s ++ [filepath t] |},
       {| at_ := Finished;
          original_filepath := original_filepath t;
          filepath := filepath t; counter := counter t |})
  | Finished => (s, t)
  end.

(** A schedule names the worker that takes the next step. *)
Fixpoint run (schedule : list nat) (s : shared) (pool : list worker)
  : shared * list worker :=
  match schedule with
  | [] => (s, pool)
  | i :: schedule' =>
      match pool !! i with
      | Some t =>
          let (s', t') := step_worker s t in
          run schedule' s' (<[i := t']> pool)
      | None => run schedule' s pool
      end
  end.

(** A worker on its own, for [fuel] steps. *)
Fixpoint alone (fuel : nat) (s : shared) (t : worker) : shared * worker :=
  match fuel with
  | O => (s, t)
  | S fuel' => let (s', t') := step_worker s t in alone fuel' s' t'
  end.

End Race.

(* ===================================================================== *)
(** * Expected outcomes and sample runs *)
(* ===================================================================== *)

(** What the properties below compare the scraper with, and small
    environments they are run in. *)
Module Expect.
Import PyStr Dom Runtime Scraper.

(** The replies the next [n] requests for [url] get. *)
Definition next_replies (E : env) (w : world) (url : pystr) (n : nat)
  : list reply :=
  List.map (fun i => net E (requests w + i) url) (seq 0 n).

(** The events of a call of [get_page_content] whose first two
    attempts fail, up to the third request. *)
Definition two_failures_log (url : pystr) : list event :=
  [ Get url; Log (AttemptFailed 1 url); Sleep (Seconds 1);
    Get url; Log (AttemptFailed 2 url); Sleep (Seconds 2);
    Get url ].

Definition three_failures_log (url : pystr) : list event :=
  two_failures_log url ++ [ Log (AttemptFailed 3 url); Log (FailedToGet url 3) ].

Definition empty_page : response :=
  {| content := []; soup := Tag (u "[document]") [] [] [] |}.

Definition all_writable (f : pystr) : write_outcome := Written.

(** A server that fails twice and then answers, and one that is down. *)
Definition flaky : env :=
  {| net := fun n _ => match n with
                       | 0 | 1 => RequestFailed
                       | _ => Respond empty_page
                       end;
     writable := all_writable |}.

Definition down : env :=
  {| net := fun _ _ => RequestFailed; writable := all_writable |}.

(** A new scraper on an empty output tree, no Ctrl-C. *)
Definition fresh : world := new_scraper ∅ None None None None.

(** ** Titles and set names *)

(** [p] is what stands before the first [sep] of [s]: all of [s] when
    [sep] does not occur. *)
Definition before_first (sep : N) (s p : pystr) : Prop :=
  (sep ∉ p) /\ (s = p \/ exists rest, s = p ++ sep :: rest).

Section Markers.
Context {U : Unicode}.

(** After the prefix [pre], [title] has a ['#'] and then a word
    character. *)
Definition marker_at (title pre : pystr) : Prop :=
  exists c rest, title = pre ++ 35%N :: c :: rest /\ isword c = true.

(** [num] is the first run of word characters that follows a ['#']. *)
Definition number_at (title num : pystr) : Prop :=
  exists pre rest,
    title = pre ++ 35%N :: num ++ rest
    /\ num <> []
    /\ Forall (fun c => isword c = true) num
    /\ match rest with [] => True | c :: _ => isword c = false end
    /\ forall pre', length pre' < length pre -> ~ marker_at title pre'.

Definition no_marker (title : pystr) : Prop :=
  forall pre, ~ marker_at title pre.

(** What [parse_card_title] does to the candidate name. *)
Definition sanitized (p : pystr) : pystr := strip (sub_non_name (strip p)).

End Markers.

(** [s] ends with a parenthesis around [code]. *)
Definition paren_token (s code : pystr) : Prop :=
  exists pre, s = pre ++ 40%N :: code ++ [41%N] /\ code <> [] /\ (41%N ∉ code).

(** [code_] is what stands in the trailing parentheses of [name_] (from
    the leftmost opening parenthesis that has no closing one before the
    last), or ["UNKNOWN"] when [name_] has no such ending. *)
Definition code_of_name (name_ code_ : pystr) : Prop :=
  (paren_token name_ code_
   /\ forall c, paren_token name_ c -> length c <= length code_)
  \/ ((forall c, ~ paren_token name_ c) /\ code_ = u "UNKNOWN").

Definition well_formed_ref (si : set_info) : Prop :=
  startswith set_url_prefix (url si) = true
  /\ code_of_name (name si) (code si).

(** [si] is the first entry of [l] with its URL. *)
Definition first_with_url (l : list set_info) (si : set_info) : Prop :=
  exists l1 l2, l = l1 ++ si :: l2 /\ (url si ∉ List.map url l1).

(** A match of [\(([^)]+)\)$] at the start of [s], and one after the
    prefix [pre]. *)
Definition matches_here (s b tail : pystr) : Prop :=
  s = 40%N :: b ++ 41%N :: tail /\ b <> [] /\ (41%N ∉ b)
  /\ at_dollar tail = true.

Definition matches_at (s pre b tail : pystr) : Prop :=
  exists rest, s = pre ++ rest /\ matches_here rest b tail.

(** ** Collection pages *)

(** An article counts as a card when it has a card-image link with an
    image tag whose [src] is not empty. *)
Definition valid_article (article : node) : bool :=
  match find_class (u "a") (u "card-image-link") article with
  | Some card_link =>
      match find_class (u "img") (u "card-image") card_link with
      | Some img_tag => nonempty (get_default (u "src") img_tag)
      | None => false
      end
  | None => false
  end.

(** [w'] has the accumulators and the output tree of [w]. *)
Definition same_store (w w' : world) : Prop :=
  downloaded_cards w' = downloaded_cards w
  /\ failed_downloads w' = failed_downloads w
  /\ images w' = images w
  /\ cards_metadata_json w' = cards_metadata_json w
  /\ pokemon_classes_txt w' = pokemon_classes_txt w
  /\ download_summary_txt w' = download_summary_txt w.

(** ** Downloads *)

(** [w'] has the two accumulators of [w]. *)
Definition same_lists (w w' : world) : Prop :=
  downloaded_cards w' = downloaded_cards w
  /\ failed_downloads w' = failed_downloads w.

(** What [download_image] may leave behind when an exception travels
    inside it: an [Exception] finds both accumulators as they were, and
    what is not an [Exception] is Ctrl-C. *)
Definition unrecorded (w : world) (e : exn) (w' : world) : Prop :=
  if is_Exception e then same_lists w w' else e = KeyboardInterrupt.

(** The outcome of [download_image card_info] that started in [w]. *)
Definition recorded (card_info : card) (w : world) (success : bool)
    (w' : world) : Prop :=
  if success then
    exists filepath,
      downloaded_cards w' =
        downloaded_cards w ++ [with_local_path card_info filepath]
      /\ failed_downloads w' = failed_downloads w
  else
    downloaded_cards w' = downloaded_cards w
    /\ failed_downloads w' = failed_downloads w ++ [card_info].

(** The file names the duplicate-filename loop tries, in order: the
    original one, then the numbered ones from 1. *)
Definition candidate (original_filepath : pystr) (i : nat) : pystr :=
  match i with
  | O => original_filepath
  | S _ => numbered original_filepath i
  end.

(** Ctrl-C does not arrive; an exception raised where it does not
    arrive is not Ctrl-C. *)
Definition no_interrupt (w : world) : Prop := fuse w = None.

Definition not_interrupted (e : exn) (w : world) : Prop :=
  e <> KeyboardInterrupt /\ fuse w = None.

(** The appends to an accumulator that the log shows outside
    [with self.lock:]; [held] tells whether the lock is held where the
    log starts. *)
Fixpoint unlocked_mutations (held : bool) (evs : list event) : list event :=
  match evs with
  | [] => []
  | Acquire :: evs' => unlocked_mutations true evs'
  | Release :: evs' => unlocked_mutations false evs'
  | (AppendDownloaded _ | AppendFailed _) as ev :: evs' =>
      if held then unlocked_mutations held evs'
      else ev :: unlocked_mutations held evs'
  | _ :: evs' => unlocked_mutations held evs'
  end.

(** A card as [get_card_images_from_set] builds it from the title
    ["Pikachu · Base Set (BS) #58"]. *)
Definition pikachu : card :=
  {| pokemon_name := u "Pikachu";
     card_title := u "Pikachu " ++ [183%N] ++ u " Base Set (BS) #58";
     card_number := u "58";
     set_name := u "Base Set (BS)"; set_code := u "BS";
     image_url := u "https://pkmncards.com/wp-content/uploads/pikachu.jpg";
     card_page_url := u "https://pkmncards.com/card/pikachu-base-set-bs-58/";
     local_path := None; filename := None |}.

(** A server that answers every request, and a disk that is full. *)
Definition up : env :=
  {| net := fun _ _ => Respond empty_page; writable := all_writable |}.

Definition disk_full : env :=
  {| net := fun _ _ => Respond empty_page;
     writable := fun _ => WriteFailed |}.

(** ** Metadata *)

(** How many cards of [downloaded] are of the set [set_name_]. *)
Definition cards_of_set (set_name_ : pystr) (downloaded : list card) : nat :=
  length (List.filter (fun c => eqb (set_name c) set_name_) downloaded).

(** The three metadata files hold the accumulators as they are. *)
Definition flushed (w : world) : Prop :=
  cards_metadata_json w
    = Some (json_of (downloaded_cards w) (failed_downloads w))
  /\ pokemon_classes_txt w = Some (classes_of (downloaded_cards w))
  /\ download_summary_txt w
    = Some (summary_of (downloaded_cards w) (failed_downloads w)).

(** ** Interrupts *)

(** Ctrl-C arrives once: where [KeyboardInterrupt] travels, none is
    left to come. *)
Definition interrupt_spent (e : exn) (w : world) : Prop :=
  e = KeyboardInterrupt -> fuse w = None.

(** The invariant that asks nothing. *)
Definition anywhere (w : world) : Prop := True.

(** ** Sample catalogs *)

Definition anchor (href text : string) : node :=
  Tag (u "a") [] [(u "href", u href)] [NavigableString (u text)].

Definition document (body : list node) : node :=
  Tag (u "[document]") [] [] body.

Definition base_set : set_info :=
  {| url := u "https://pkmncards.com/set/base-set/";
     name := u "Base Set (BS)"; code := u "BS" |}.

(** The catalog lists one set, whose page cannot be fetched. *)
Definition lonely : env :=
  {| net := fun _ url_ =>
       if eqb url_ base_url then
         Respond {| content := [];
                    soup := document
                      [anchor "https://pkmncards.com/set/base-set/"
                              "Base Set (BS)"] |}
       else RequestFailed;
     writable := all_writable |}.

(** ** Local paths *)

(** Every downloaded card has its own [local_path], and the file it
    names is in the images directory. *)
Definition paths_unique (w : world) : Prop :=
  NoDup (List.map local_path (downloaded_cards w))
  /\ Forall (fun c => exists f, local_path c = Some (u "images/" ++ f)
                                /\ f ∈ images w) (downloaded_cards w).

(** [paths_unique], and no downloaded card has the path of [f] yet. *)
Definition path_free (f : pystr) (w : world) : Prop :=
  paths_unique w
  /\ (Some (u "images/" ++ f) ∉ List.map local_path (downloaded_cards w)).

(** The pool state two workers leave, for the schedule that lets
    both pass [filepath.exists()] before either opens its file. *)
Definition both_exist_first (filename : pystr) : Race.shared * list Race.worker :=
  Race.run [0; 1; 0; 1] {| Race.dir := ∅; Race.written := [] |}
           [Race.start filename; Race.start filename].

(** The same two workers, one after the other. *)
Definition one_then_other (filename : pystr) : Race.shared * list Race.worker :=
  Race.run [0; 0; 1; 1; 1] {| Race.dir := ∅; Race.written := [] |}
           [Race.start filename; Race.start filename].

(** ** The catalog of the end-to-end scenario *)

Definition card_article (pokemon number set_ src : string) : node :=
  Tag (u "article") [u "type-pkmn_card"; u "entry"] []
    [ Tag (u "a") [u "card-image-link"]
        [ (u "title",
           u pokemon ++ [32%N; 183%N; 32%N] ++ u set_ ++ u " #" ++ u number);
          (u "href", u "https://pkmncards.com/card/" ++ u pokemon) ]
        [ Tag (u "img") [u "card-image"] [(u "src", u src)] [] ] ].

(** An article whose image has no source. *)
Definition broken_article : node :=
  Tag (u "article") [u "type-pkmn_card"; u "entry"] []
    [ Tag (u "a") [u "card-image-link"] [(u "title", u "?")]
        [ Tag (u "img") [u "card-image"] [] [] ] ].

Definition page (body : list node) : reply :=
  Respond {| content := []; soup := document body |}.

(** Two sets, each with three cards and one broken article. *)
Definition two_sets : env :=
  {| net := fun _ url_ =>
       if eqb url_ base_url then
         page [ anchor "https://pkmncards.com/set/base-set/" "Base Set (BS)";
                anchor "https://pkmncards.com/set/jungle/" " Jungle (JU) " ]
       else if eqb url_ (u "https://pkmncards.com/set/base-set/") then
         page [ card_article "Pikachu" "58" "Base Set (BS)" "https://img/bs58.jpg";
                card_article "Charizard" "4" "Base Set (BS)" "https://img/bs4.jpg";
                broken_article;
                card_article "Mewtwo" "10" "Base Set (BS)" "https://img/bs10.jpg" ]
       else if eqb url_ (u "https://pkmncards.com/set/jungle/") then
         page [ card_article "Eevee" "51" "Jungle (JU)" "https://img/ju51.jpg";
                card_article "Pikachu" "60" "Jungle (JU)" "https://img/ju60.jpg";
                card_article "Snorlax" "11" "Jungle (JU)" "https://img/ju11.jpg";
                broken_article ]
       else Respond empty_page;
     writable := all_writable |}.

(** ** Retries *)

(** The events of [k] failed attempts that are each followed by a
    sleep, the first of them being attempt number [from] of the loop. *)
Fixpoint failed_attempts_log (url : pystr) (from k : nat) : list event :=
  match k with
  | O => []
  | S k' =>
      [ Get url; Log (AttemptFailed (from + 1) url); Sleep (Seconds (2 ^ from)) ]
      ++ failed_attempts_log url (S from) k'
  end.

(** The events of a call of [get_page_content] whose [retries]
    attempts all fail. *)
Definition gave_up_log (url : pystr) (retries : nat) : list event :=
  match retries with
  | O => []
  | S k =>
      failed_attempts_log url 0 k
      ++ [ Get url; Log (AttemptFailed retries url);
           Log (FailedToGet url retries) ]
  end.

(** The seconds of back-off a log shows. *)
Fixpoint slept (evs : list event) : nat :=
  match evs with
  | [] => 0
  | Sleep (Seconds n) :: evs' => n + slept evs'
  | _ :: evs' => slept evs'
  end.

(** A server whose first reply is a failure and whose second request
    ends in an exception that is not a [RequestException]. *)
Definition crashing : env :=
  {| net := fun n _ => match n with 0 => RequestFailed | _ => Crashed end;
     writable := all_writable |}.

(** ** Frames *)

(** [I] does not depend on the clock, the log, the accumulators or the
    output tree; [I] does not depend on the request counter. *)
Definition kept_by_writes (I : world -> Prop) : Prop :=
  (forall f w, I w -> I (set_fuse f w))
  /\ (forall ev w, I w -> I (add_event ev w))
  /\ (forall c w, I w -> I (push_failed c w))
  /\ (forall c w, I w -> I (push_downloaded c w))
  /\ (forall f w, I w -> I (add_image f w))
  /\ (forall j w, I w -> I (put_json j w))
  /\ (forall l w, I w -> I (put_classes l w))
  /\ (forall l w, I w -> I (put_summary l w)).

Definition kept_by_requests (I : world -> Prop) : Prop :=
  forall w, I w -> I (count_request w).

(** [m] keeps [I], however it ends. *)
Definition keeps {A} (I : world -> Prop) (m : M A) : Prop :=
  triple I m (fun _ => I) (fun _ => I).

(** ** Cost *)

(** [Q] holds of the number of requests sent so far. *)
Definition requests_are (Q : nat -> Prop) (w : world) : Prop := Q (requests w).

(** ** Files of a download *)







(** ** File names *)

(** The file name of a card without its extension. *)
Definition file_base {U : Unicode} (c : card) : pystr :=
  replace 32 95 (sub_non_name (pokemon_name c)) ++ u "_"
    ++ sub_non_code (set_code c) ++ u "_" ++ card_number c.

(** A character that [\w], [\s] or ['-'] matches and that is neither a
    space, a dot, a slash nor a backslash. *)
Definition plain_char {U : Unicode} (ch : N) : Prop :=
  keep_name_char ch = true
  /\ ch <> 32%N /\ ch <> 46%N /\ ch <> 47%N /\ ch <> 92%N.

(** A card as the scanning loop builds it for the set [si]. *)
Definition scanned {U : Unicode} (si : set_info) (c : card) : Prop :=
  image_url c <> []
  /\ set_name c = name si /\ set_code c = code si
  /\ local_path c = None /\ filename c = None
  /\ (pokemon_name c, card_number c) = parse_card_title (card_title c).

(** ** Batches *)





(** ** What a run keeps *)

(** From [w] to [w'] the two accumulators were only appended to and
    no image file disappeared. *)
Definition only_grown (w w' : world) : Prop :=
  downloaded_cards w `prefix_of` downloaded_cards w'
  /\ failed_downloads w `prefix_of` failed_downloads w'
  /\ images w ⊆ images w'.

(** A Unicode table for the sample runs: no character above U+007F
    counts as alphanumeric or as white space. *)
Definition ascii_table : Unicode :=
  {| uni_isalnum := fun _ => false; uni_isspace := fun _ => false |}.

(** ** Pools *)

(** The workers of a pool that have not recorded their path yet. *)
Definition unfinished (pool : list Race.worker) : nat :=
  length (List.filter
            (fun t => match Race.at_ t with Race.Finished => false | _ => true end)
            pool).

(** ** A server that does not change *)

(** Every request for a URL gets the reply the first one gets. *)
Definition steady (E : env) : Prop := forall n url_, net E n url_ = net E 0 url_.



(** [total_cards_expected] is [k]. *)
Definition expected_is (k : nat) (w : world) : Prop := total_cards_expected w = k.

End Expect.

(* ===================================================================== *)
(** * Properties *)
(* ===================================================================== *)

Module Hoare.
Import Runtime Scraper.
Local Open Scope py_scope.

Lemma triple_ret {A} (P : world -> Prop) (a : A) Q X :
  (forall w, P w -> Q a w) -> triple P (ret a) Q X.
Proof. intros H w Hw. simpl. auto. Qed.

Lemma triple_raise {A} (P : world -> Prop) e (Q : A -> world -> Prop) X :
  (forall w, P w -> X e w) -> triple P (raise e) Q X.
Proof. intros H w Hw. simpl. auto. Qed.

Lemma triple_bind {A B} (P : world -> Prop) (m : M A) (k : A -> M B) R Q X :
  triple P m R X -> (forall a, triple (R a) (k a) Q X) ->
  triple P (bind m k) Q X.
Proof.
  intros Hm Hk w Hw. unfold bind. specialize (Hm w Hw).
  destruct (m w) as [[a|e] w']; [ apply (Hk a w' Hm) | exact Hm ].
Qed.

Lemma triple_conseq {A} (P P' : world -> Prop) (m : M A) Q Q' X X' :
  triple P' m Q' X' ->
  (forall w, P w -> P' w) ->
  (forall a w, Q' a w -> Q a w) ->
  (forall e w, X' e w -> X e w) ->
  triple P m Q X.
Proof.
  intros Hm HP HQ HX w Hw. specialize (Hm w (HP w Hw)).
  destruct (m w) as [[a|e] w']; auto.
Qed.

Lemma triple_try_except {A} (P : world -> Prop) (m : M A)
    (catch : exn -> bool) handler (R : world -> Prop) Q X :
  triple P m Q (fun e w => if catch e then R w else X e w) ->
  triple R handler Q X ->
  triple P (try_except m catch handler) Q X.
Proof.
  intros Hm Hh w Hw. unfold try_except. specialize (Hm w Hw).
  destruct (m w) as [[a|e] w']; [ exact Hm | ].
  destruct (catch e); [ apply (Hh w' Hm) | exact Hm ].
Qed.

Lemma triple_finally {A} (P : world -> Prop) (m : M A) (f : world -> world) Q X :
  triple P m (fun a w => Q a (f w)) (fun e w => X e (f w)) ->
  triple P (finally m f) Q X.
Proof.
  intros Hm w Hw. unfold finally. specialize (Hm w Hw).
  destruct (m w) as [[a|e] w']; exact Hm.
Qed.

Lemma triple_gets {A} (P : world -> Prop) (f : world -> A) Q X :
  (forall w, P w -> Q (f w) w) -> triple P (gets f) Q X.
Proof. intros H w Hw. simpl. auto. Qed.

Lemma triple_modify (P : world -> Prop) f Q X :
  (forall w, P w -> Q tt (f w)) -> triple P (modify f) Q X.
Proof. intros H w Hw. simpl. auto. Qed.

Lemma triple_tick (P : world -> Prop) Q X :
  (forall w, P w -> fuse w = None -> Q tt w) ->
  (forall w n, P w -> fuse w = Some (S n) -> Q tt (set_fuse (Some n) w)) ->
  (forall w, P w -> fuse w = Some 0 -> X KeyboardInterrupt (set_fuse None w)) ->
  triple P tick Q X.
Proof.
  intros H1 H2 H3 w Hw. unfold tick.
  destruct (fuse w) as [[|n]|] eqn:Hf; auto.
Qed.

Lemma triple_for_each {A} (I : world -> Prop) (body : A -> M unit) l X :
  (forall a, In a l -> triple I (body a) (fun _ => I) X) ->
  triple I (for_each body l) (fun _ => I) X.
Proof.
  induction l as [|a l IH]; intros Hb.
  - apply triple_ret. auto.
  - simpl. eapply triple_bind.
    + apply Hb. now left.
    + intros []. apply IH. intros b Hin. apply Hb. now right.
Qed.

Lemma triple_exn {A} (P : world -> Prop) (m : M A) Q
    (X X' : exn -> world -> Prop) :
  triple P m Q X' -> (forall e w, X' e w -> X e w) -> triple P m Q X.
Proof.
  intros Hm HX. eapply triple_conseq; [ exact Hm | | | exact HX ]; auto.
Qed.

Lemma triple_step (P : world -> Prop) ev (X : exn -> world -> Prop) :
  blind P ->
  (forall w, P w -> X KeyboardInterrupt w) ->
  triple P (step ev) (fun _ => P) X.
Proof.
  intros (Hf & He & _) HX. eapply triple_bind.
  - apply triple_tick with (Q := fun _ => P); auto.
  - intros []. apply triple_modify. auto.
Qed.

Lemma with_lock_spec {A} (P : world -> Prop) (m : M A) (Q : A -> world -> Prop) :
  blind P ->
  (forall a ev w, Q a w -> Q a (add_event ev w)) ->
  triple P m Q (fun e _ => e = KeyboardInterrupt) ->
  triple P (with_lock m) Q (fun e _ => e = KeyboardInterrupt).
Proof.
  intros HP HQ Hm. eapply triple_bind.
  - apply triple_step; [ exact HP | reflexivity ].
  - intros []. apply triple_finally.
    eapply triple_conseq; [ exact Hm | auto | | auto ].
    intros a w. apply HQ.
Qed.

End Hoare.

(** ** Invariants of a run *)

Module Stable.
Import PyStr Dom Runtime Scraper Hoare.
Local Open Scope py_scope.

Section Rules.
Context {U : Unicode} (E : env).
Context (I : world -> Prop) (X : exn -> world -> Prop) `{!stable I X}.

Lemma safe_ret {A} (a : A) : safe I X (ret a).
Proof. apply triple_ret. auto. Qed.

Lemma safe_gets {A} (f : world -> A) : safe I X (gets f).
Proof. apply triple_gets. auto. Qed.

Lemma safe_bind {A B} (m : M A) (k : A -> M B) :
  safe I X m -> (forall a, safe I X (k a)) -> safe I X (bind m k).
Proof. intros Hm Hk. eapply triple_bind; [ exact Hm | exact Hk ]. Qed.

Lemma safe_raise {A} e : is_Exception e = true -> safe I X (@raise A e).
Proof. intros He. apply triple_raise. intros w Hw. now apply stable_error. Qed.

Lemma safe_tick : safe I X tick.
Proof. apply stable_tick. Qed.

Lemma safe_modify f : (forall w, I w -> I (f w)) -> safe I X (modify f).
Proof. intros H. apply triple_modify. exact H. Qed.

Lemma safe_try_except {A} (m : M A) (catch : exn -> bool) handler :
  (forall e, catch e = true -> is_Exception e = true) ->
  safe I X m -> safe I X handler -> safe I X (try_except m catch handler).
Proof.
  intros Hc Hm Hh. eapply triple_try_except; [ | exact Hh ].
  eapply triple_conseq; [ exact Hm | auto | auto | ].
  intros e w He. simpl. destruct (catch e) eqn:Hce; [ | exact He ].
  apply (stable_caught e); auto.
Qed.

Lemma safe_log m : safe I X (log m).
Proof. apply safe_modify. intros w. apply stable_event. Qed.

Lemma safe_step ev : safe I X (step ev).
Proof.
  apply safe_bind; [ apply safe_tick | intros [] ].
  apply safe_modify. intros w. apply stable_event.
Qed.

Lemma safe_sleep d : safe I X (sleep d).
Proof. apply safe_step. Qed.

Lemma safe_with_lock {A} (m : M A) : safe I X m -> safe I X (with_lock m).
Proof.
  intros Hm. apply safe_bind; [ apply safe_step | intros [] ].
  apply triple_finally. eapply triple_conseq; [ exact Hm | auto | | ].
  - intros ? w. apply stable_event.
  - intros e w. apply stable_event_exn.
Qed.

Lemma safe_session_get url : safe I X (session_get E url).
Proof.
  apply safe_bind; [ apply safe_tick | intros [] ].
  intros w Hw.
  assert (I (add_event (Get url) (count_request w))) as Hw'
    by now apply stable_event, stable_request.
  destruct (net E (requests w) url); [ exact Hw' | | ];
    now apply stable_error.
Qed.

Lemma safe_for_each {A} (body : A -> M unit) l :
  (forall a, safe I X (body a)) -> safe I X (for_each body l).
Proof. intros Hb. apply triple_for_each. intros a _. apply Hb. Qed.

(** *** The methods that only read the network *)

Lemma safe_get_page_attempt url retries attempt :
  safe I X (get_page_attempt E url retries attempt).
Proof.
  apply safe_try_except.
  - now intros [].
  - apply safe_bind; [ apply safe_session_get | intros r; apply safe_ret ].
  - apply safe_bind; [ apply safe_log | intros [] ].
    destruct (attempt <? retries - 1).
    + apply safe_bind; [ apply safe_sleep | intros []; apply safe_ret ].
    + apply safe_bind; [ apply safe_log | intros []; apply safe_ret ].
Qed.

Lemma safe_get_page_loop url retries range :
  safe I X (get_page_loop E url retries range).
Proof.
  induction range as [|a range IH]; simpl.
  - apply safe_ret.
  - apply safe_bind; [ apply safe_get_page_attempt | intros [v|] ].
    + apply safe_ret.
    + exact IH.
Qed.

Lemma safe_get_page_content url : safe I X (get_page_content E url).
Proof. apply safe_get_page_loop. Qed.

Lemma safe_extract_set_links : safe I X (extract_set_links E).
Proof.
  apply safe_bind; [ apply safe_get_page_content | intros [r|]; apply safe_ret ].
Qed.

Lemma safe_count_cards_in_set set_url si :
  safe I X (count_cards_in_set E set_url si).
Proof.
  apply safe_bind; [ apply safe_get_page_content | intros [r|]; apply safe_ret ].
Qed.

Lemma safe_get_card_images_from_set set_url si :
  safe I X (get_card_images_from_set E set_url si).
Proof.
  apply safe_bind; [ apply safe_get_page_content | intros [r|]; apply safe_ret ].
Qed.

Lemma safe_count_one acc si : safe I X (count_one E acc si).
Proof.
  destruct acc as [total_count set_counts]. apply safe_try_except.
  - auto.
  - apply safe_bind; [ apply safe_count_cards_in_set | intros n ].
    apply safe_bind; [ apply safe_sleep | intros []; apply safe_ret ].
  - apply safe_bind; [ apply safe_log | intros []; apply safe_ret ].
Qed.

Lemma safe_count_loop set_links : forall acc,
  safe I X (count_loop E acc set_links).
Proof.
  induction set_links as [|si rest IH]; intros acc; simpl.
  - apply safe_ret.
  - apply safe_bind; [ apply safe_count_one | intros acc'; apply IH ].
Qed.

Lemma safe_count_total_cards : safe I X (count_total_cards E).
Proof.
  apply safe_bind; [ apply safe_extract_set_links | intros [|si rest] ].
  - apply safe_bind; [ apply safe_log | intros []; apply safe_ret ].
  - apply safe_count_loop.
Qed.

Lemma safe_discover skip_count : safe I X (discover E skip_count).
Proof.
  unfold discover. destruct skip_count; simpl.
  - apply safe_bind; [ apply safe_extract_set_links | intros [|si rest] ].
    + apply safe_bind; [ apply safe_log | intros []; apply safe_ret ].
    + apply safe_bind; [ | intros []; apply safe_ret ].
      apply safe_modify. intros w. apply stable_expected.
  - apply safe_bind; [ apply safe_count_total_cards | intros [total sc] ].
    apply safe_bind; [ apply safe_modify; intros w; apply stable_expected | ].
    intros []. destruct (total =? 0).
    + apply safe_bind; [ apply safe_log | intros []; apply safe_ret ].
    + apply safe_ret.
Qed.

End Rules.

End Stable.

(** ** get_page_content *)

Module FetchFacts.
Import PyStr Dom Runtime Scraper Hoare Expect.
Local Open Scope py_scope.

Section Fetch.
Context (E : env).

Lemma tick_off w : fuse w = None -> tick w = (Returned tt, w).
Proof. intros H. unfold tick. now rewrite H. Qed.

Lemma tick_requests w : requests (tick w).2 = requests w.
Proof. unfold tick. now destruct (fuse w) as [[|n]|]. Qed.

Lemma step_requests e w : requests (step e w).2 = requests w.
Proof.
  unfold step, bind. pose proof (tick_requests w) as Ht.
  now destruct (tick w) as [[[]|x] w1].
Qed.

Lemma session_get_requests url w :
  requests (session_get E url w).2 <= S (requests w).
Proof.
  unfold session_get, bind. pose proof (tick_requests w) as Ht.
  destruct (tick w) as [[[]|x] w1]; simpl in *; [ | lia ].
  destruct (net E (requests w1) url); simpl; lia.
Qed.

Lemma attempt_requests url retries attempt w :
  requests (get_page_attempt E url retries attempt w).2 <= S (requests w).
Proof.
  unfold get_page_attempt, try_except, bind at 1.
  pose proof (session_get_requests url w) as Hs.
  destruct (session_get E url w) as [[r|e] w1]; simpl in *; [ exact Hs | ].
  destruct e; simpl; try exact Hs.
  unfold bind, log, modify, sleep. simpl.
  destruct (attempt <? retries - 1); simpl; [ | exact Hs ].
  match goal with |- context [step ?e ?w] =>
    pose proof (step_requests e w) as Hp; destruct (step e w) as [[[]|x] w2]
  end; simpl in *; lia.
Qed.

Lemma loop_requests url retries range w :
  requests (get_page_loop E url retries range w).2 <= requests w + length range.
Proof.
  revert w. induction range as [|a range IH]; intros w; simpl; [ lia | ].
  unfold bind. pose proof (attempt_requests url retries a w) as Ha.
  destruct (get_page_attempt E url retries a w) as [[[v|]|e] w1]; simpl in *;
    try lia.
  specialize (IH w1). lia.
Qed.

Lemma add_event_advance e n evs w :
  add_event e (advance n evs w) = advance n (evs ++ [e]) w.
Proof. unfold add_event, advance. simpl. f_equal. now rewrite <- app_assoc. Qed.

Lemma count_request_advance n evs w :
  count_request (advance n evs w) = advance (S n) evs w.
Proof. unfold count_request, advance. simpl. f_equal. lia. Qed.

Lemma advance_0 w : advance 0 [] w = w.
Proof.
  destruct w. unfold advance. simpl. f_equal; [ lia | apply app_nil_r ].
Qed.

(** A request from the world [advance n evs w], with no interrupt. *)
Lemma session_get_advance url n evs w :
  fuse w = None ->
  session_get E url (advance n evs w) =
    (match net E (requests w + n) url with
     | Respond r => Returned r
     | RequestFailed => Raised RequestException
     | Crashed => Raised OtherException
     end, advance (S n) (evs ++ [Get url]) w).
Proof.
  intros Hf. unfold session_get, bind. rewrite tick_off by exact Hf.
  rewrite count_request_advance, add_event_advance. simpl.
  destruct (net E (requests w + n) url); reflexivity.
Qed.

Lemma step_advance e n evs w :
  fuse w = None ->
  step e (advance n evs w) = (Returned tt, advance n (evs ++ [e]) w).
Proof.
  intros Hf. unfold step, bind, modify. rewrite tick_off by exact Hf.
  now rewrite add_event_advance.
Qed.

Ltac attempt_fails Hf Hreply :=
  rewrite session_get_advance, Hreply by exact Hf; simpl;
  rewrite add_event_advance, ?step_advance by exact Hf; simpl.

Lemma two_failures url w r :
  fuse w = None ->
  next_replies E w url 3 = [RequestFailed; RequestFailed; Respond r] ->
  get_page_content E url w =
    (Returned (Some r), advance 3 (two_failures_log url) w).
Proof.
  intros Hf Hn. unfold next_replies in Hn. simpl in Hn.
  injection Hn as H0 H1 H2.
  rewrite <- (advance_0 w) at 1.
  unfold get_page_content, get_page_content_retries. simpl.
  unfold get_page_attempt, bind, try_except, log, sleep, modify, ret.
  attempt_fails Hf H0. attempt_fails Hf H1.
  rewrite session_get_advance, H2 by exact Hf. reflexivity.
Qed.

Lemma three_failures url w :
  fuse w = None ->
  next_replies E w url 3 = [RequestFailed; RequestFailed; RequestFailed] ->
  get_page_content E url w =
    (Returned None, advance 3 (three_failures_log url) w).
Proof.
  intros Hf Hn. unfold next_replies in Hn. simpl in Hn.
  injection Hn as H0 H1 H2.
  rewrite <- (advance_0 w) at 1.
  unfold get_page_content, get_page_content_retries. simpl.
  unfold get_page_attempt, bind, try_except, log, sleep, modify, ret.
  attempt_fails Hf H0. attempt_fails Hf H1. attempt_fails Hf H2.
  rewrite !add_event_advance. reflexivity.
Qed.

(** C1.  [get_page_content] sends at most three requests.  When the
    first two fail and the third is answered, it returns that response
    after exactly three requests, having slept 1 second after the first
    failure and 2 seconds after the second.  When all three fail it
    returns [None]: the failure is logged and no exception reaches the
    caller.  ([fuse w = None]: Ctrl-C is not pressed during the call.) *)
Theorem get_page_content_three_attempts url w :
  requests (get_page_content E url w).2 <= requests w + 3
  /\ (fuse w = None ->
      forall r,
        next_replies E w url 3 = [RequestFailed; RequestFailed; Respond r] ->
        get_page_content E url w =
          (Returned (Some r), advance 3 (two_failures_log url) w))
  /\ (fuse w = None ->
      next_replies E w url 3 = [RequestFailed; RequestFailed; RequestFailed] ->
      get_page_content E url w =
        (Returned None, advance 3 (three_failures_log url) w)).
Proof.
  split; [ | split ].
  - apply (loop_requests url 3 (seq 0 3) w).
  - intros Hf r Hn. now apply two_failures.
  - intros Hf Hn. now apply three_failures.
Qed.

End Fetch.

(** The two traces of C1, on a server that fails twice and on one that
    is down. *)
Lemma get_page_content_three_attempts_witness :
  get_page_content flaky base_url fresh =
    (Returned (Some empty_page), advance 3 (two_failures_log base_url) fresh)
  /\ get_page_content down base_url fresh =
    (Returned None, advance 3 (three_failures_log base_url) fresh).
Proof.
  split.
  - apply (proj1 (proj2 (get_page_content_three_attempts flaky base_url fresh)));
      reflexivity.
  - apply (proj2 (proj2 (get_page_content_three_attempts down base_url fresh)));
      reflexivity.
Defined.

End FetchFacts.

(** ** Strings *)

Module StripFacts.
Import PyStr Dom Runtime Scraper Expect.
Local Open Scope N_scope.
Section Strip.
Context {U : Unicode}.

Lemma lstrip_head s :
  match lstrip s with [] => True | c :: _ => isspace c = false end.
Proof.
  induction s as [|c s IH]; simpl; [ exact I | ].
  destruct (isspace c) eqn:Hc; [ exact IH | exact Hc ].
Qed.

Lemma lstrip_id c s : isspace c = false -> lstrip (c :: s) = c :: s.
Proof. intros Hc. simpl. now rewrite Hc. Qed.

Lemma lstrip_idemp s : lstrip (lstrip s) = lstrip s.
Proof.
  pose proof (lstrip_head s) as H. destruct (lstrip s) as [|c t]; [ reflexivity | ].
  now apply lstrip_id.
Qed.

Lemma lstrip_snoc s c : isspace c = false -> lstrip (s ++ [c]) = lstrip s ++ [c].
Proof.
  intros Hc. induction s as [|x s IH]; simpl.
  - now rewrite Hc.
  - destruct (isspace x); [ exact IH | reflexivity ].
Qed.

Lemma rstrip_cons c s : isspace c = false -> rstrip (c :: s) = c :: rstrip s.
Proof.
  intros Hc. unfold rstrip. simpl. rewrite lstrip_snoc by exact Hc.
  now rewrite rev_app_distr.
Qed.

Lemma rstrip_idemp s : rstrip (rstrip s) = rstrip s.
Proof. unfold rstrip. now rewrite rev_involutive, lstrip_idemp. Qed.

Lemma rstrip_last s c : last (rstrip s) = Some c -> isspace c = false.
Proof.
  unfold rstrip. pose proof (lstrip_head (rev s)) as H.
  destruct (lstrip (rev s)) as [|x t]; simpl; [ discriminate | ].
  rewrite last_snoc. intros [= ->]. exact H.
Qed.

Lemma strip_idemp s : strip (strip s) = strip s.
Proof.
  unfold strip. pose proof (lstrip_head s) as H.
  destruct (lstrip s) as [|c t].
  - reflexivity.
  - rewrite (rstrip_cons c t H), (lstrip_id c _ H), (rstrip_cons c _ H).
    now rewrite rstrip_idemp.
Qed.

Lemma strip_last s c : last (strip s) = Some c -> isspace c = false.
Proof. apply rstrip_last. Qed.

Lemma lstrip_Forall (P : N -> Prop) s : Forall P s -> Forall P (lstrip s).
Proof.
  induction 1 as [|c s Hc Hs IH]; simpl; [ constructor | ].
  destruct (isspace c); [ exact IH | now constructor ].
Qed.

Lemma strip_Forall (P : N -> Prop) s : Forall P s -> Forall P (strip s).
Proof.
  intros H. unfold strip, rstrip.
  apply Forall_rev, lstrip_Forall, Forall_rev, lstrip_Forall, H.
Qed.

End Strip.
End StripFacts.

(** ** parse_card_title *)

Module TitleFacts.
Import PyStr Dom Runtime Scraper Expect StripFacts.
Local Open Scope N_scope.

Lemma split_head sep s :
  exists p ps, split sep s = p :: ps /\ before_first sep s p.
Proof.
  induction s as [|c s (p & ps & Hs & Hn & Hp)]; simpl.
  - exists [], []. split; [ reflexivity | ].
    split; [ apply not_elem_of_nil | now left ].
  - destruct (N.eqb_spec c sep) as [->|Hc].
    + exists [], (split sep s). split; [ reflexivity | ].
      split; [ apply not_elem_of_nil | right; now exists s ].
    + rewrite Hs. exists (c :: p), ps. split; [ reflexivity | ].
      split.
      * rewrite elem_of_cons. intros [->|Hin]; [ now apply Hc | now apply Hn ].
      * destruct Hp as [->|[rest ->]]; [ now left | right; now exists rest ].
Qed.

Section Numbers.
Context {U : Unicode}.

Lemma word_run_spec s :
  s = (word_run s).1 ++ (word_run s).2
  /\ Forall (fun c => isword c = true) (word_run s).1
  /\ match (word_run s).2 with [] => True | c :: _ => isword c = false end.
Proof.
  induction s as [|c s (IH1 & IH2 & IH3)]; simpl.
  - repeat split. constructor.
  - destruct (isword c) eqn:Hc.
    + destruct (word_run s) as [r t]. simpl in *.
      repeat split; [ now f_equal | now constructor | exact IH3 ].
    + simpl. repeat split; [ constructor | exact Hc ].
Qed.

Lemma marker_at_cons x title pre :
  marker_at (x :: title) (x :: pre) <-> marker_at title pre.
Proof.
  unfold marker_at. split; intros (c & rest & H & Hc); exists c, rest;
    (split; [ | exact Hc ]); simpl in *; congruence.
Qed.

Lemma marker_at_nil title :
  marker_at title [] <->
  exists c rest, title = 35 :: c :: rest /\ isword c = true.
Proof. reflexivity. Qed.

Lemma marker_at_head x title pre :
  marker_at (x :: title) pre ->
  (pre = [] /\ x = 35) \/ exists pre', pre = x :: pre' /\ marker_at title pre'.
Proof.
  intros (c & rest & H & Hc). destruct pre as [|y pre]; simpl in H.
  - left. split; [ reflexivity | congruence ].
  - right. injection H as -> H. exists pre. split; [ reflexivity | ].
    now exists c, rest.
Qed.

Lemma search_hash_word_spec title :
  match search_hash_word title with
  | Some num => number_at title num
  | None => no_marker title
  end.
Proof.
  induction title as [|x title IH]; simpl.
  - intros pre (c & rest & H & _). now destruct pre.
  - assert (forall num, number_at title num -> 
              ~ marker_at (x :: title) [] -> number_at (x :: title) num) as Hshift.
    { intros num (pre & rest & Ht & Hne & Hw & Hr & Hfirst) H0.
      exists (x :: pre), rest. repeat split; try assumption.
      - simpl. now f_equal.
      - intros pre' Hlen Hm. destruct (marker_at_head _ _ _ Hm) as [[-> _]|(p & -> & Hm')].
        + now apply H0.
        + apply (Hfirst p); [ simpl in Hlen; lia | exact Hm' ]. }
    assert (no_marker title -> ~ marker_at (x :: title) [] ->
            no_marker (x :: title)) as Hnone.
    { intros Hn H0 pre Hm. destruct (marker_at_head _ _ _ Hm) as [[-> _]|(p & -> & Hm')].
      - now apply H0.
      - now apply (Hn p). }
    destruct (N.eqb_spec x 35) as [->|Hx].
    + pose proof (word_run_spec title) as (H1 & H2 & H3).
      destruct (word_run title) as [r t]. simpl in *.
      destruct r as [|c r].
      * assert (~ marker_at (35 :: title) []) as H0.
        { intros (c & rest & H & Hc). injection H as H. simpl in H1.
          subst. simpl in H3. congruence. }
        revert IH. destruct (search_hash_word title); intros IH;
          [ now apply Hshift | now apply Hnone ].
      * exists [], t. repeat split; try assumption.
        -- simpl. now f_equal.
        -- discriminate.
        -- intros pre' Hlen. simpl in Hlen. lia.
    + assert (~ marker_at (x :: title) []) as H0.
      { intros (c & rest & H & _). injection H as H _. now apply Hx. }
      revert IH. destruct (search_hash_word title); intros IH;
          [ now apply Hshift | now apply Hnone ].
Qed.

(** C6 (as amended).  The name [parse_card_title] returns is the
    sanitized text before the first ['·'], which is the whole title when
    the title has no ['·']; it holds word characters, white space and
    hyphens only.  The number is the first run of word characters that
    directly follows a ['#'], and ["0"] when no ['#'] is followed by a
    word character. *)
Theorem parse_card_title_spec title :
  (exists p, before_first 183 title p
             /\ (parse_card_title title).1 = sanitized p)
  /\ Forall (fun c => keep_name_char c = true) (parse_card_title title).1
  /\ ((exists num, number_at title num /\ (parse_card_title title).2 = num)
      \/ (no_marker title /\ (parse_card_title title).2 = u "0")).
Proof.
  split; [ | split ].
  - destruct (split_head 183 title) as (p & ps & Hs & Hp).
    exists p. split; [ exact Hp | ].
    unfold parse_card_title, sanitized. now rewrite Hs.
  - unfold parse_card_title. simpl. apply strip_Forall.
    apply List.Forall_forall. intros c Hc.
    now apply List.filter_In in Hc as [_ Hc].
  - pose proof (search_hash_word_spec title) as H.
    unfold parse_card_title. simpl.
    destruct (search_hash_word title) as [num|].
    + left. now exists num.
    + right. now split.
Qed.
End Numbers.

(** C6, as stated, fails: a title without separator and without number
    marker keeps its text as the name; the sentinel ["Unknown"] is not
    returned. *)
Lemma parse_card_title_keeps_title :
  let title := u "Pikachu" in
  (183 ∉ title)
  /\ forall U : Unicode,
       (@parse_card_title U title).1 = title
       /\ (@parse_card_title U title).1 <> u "Unknown"
       /\ (@parse_card_title U title).2 = u "0".
Proof.
  split.
  - intros H. vm_compute in H.
    repeat (apply elem_of_cons in H as [H|H]; [ discriminate | ]).
    now apply elem_of_nil in H.
  - intros U0. repeat split. discriminate.
Qed.
End TitleFacts.

(** ** extract_set_code, extract_set_links *)

Module CodeFacts.
Import PyStr Dom Runtime Scraper Expect.
Import StripFacts.
Local Open Scope N_scope.

Lemma span_not_rparen_spec s :
  s = (span_not_rparen s).1 ++ (span_not_rparen s).2
  /\ (41 ∉ (span_not_rparen s).1)
  /\ match (span_not_rparen s).2 with [] => True | c :: _ => c = 41 end.
Proof.
  induction s as [|c s (IH1 & IH2 & IH3)]; simpl.
  - repeat split. apply not_elem_of_nil.
  - destruct (N.eqb_spec c 41) as [->|Hc]; simpl.
    + repeat split. apply not_elem_of_nil.
    + destruct (span_not_rparen s) as [b t]. simpl in *.
      repeat split; [ now f_equal | | exact IH3 ].
      rewrite elem_of_cons. intros [H|H]; [ now apply Hc | now apply IH2 ].
Qed.

(** The class [[^)]+] followed by [')'] can match in one way only. *)
Lemma rparen_split_unique (b b' t t' : pystr) :
  b ++ 41 :: t = b' ++ 41 :: t' -> 41 ∉ b -> 41 ∉ b' -> b = b' /\ t = t'.
Proof.
  revert b'. induction b as [|x b IH]; intros [|y b'] H Hb Hb'; simpl in H.
  - injection H as ->. auto.
  - injection H as <- _. exfalso. apply Hb'. now left.
  - injection H as -> _. exfalso. apply Hb. now left.
  - injection H as -> H. apply IH in H as [-> ->]; auto.
    + intros Hin. apply Hb. now right.
    + intros Hin. apply Hb'. now right.
Qed.

Lemma match_paren_at_spec s :
  match match_paren_at s with
  | Some b => exists tail, matches_here s b tail
  | None => forall b tail, ~ matches_here s b tail
  end.
Proof.
  unfold match_paren_at. destruct s as [|c s].
  - intros b tail (H & _). discriminate.
  - destruct (N.eqb_spec c 40) as [->|Hc].
    + pose proof (span_not_rparen_spec s) as (H1 & H2 & H3).
      destruct (span_not_rparen s) as [b t]. simpl in *.
      assert (forall b' tail', matches_here (40 :: s) b' tail' ->
                b' = b /\ t = 41 :: tail') as Huniq.
      { intros b' tail' (Hs & Hne & Hnot & Hd). injection Hs as Hs.
        destruct t as [|x t].
        - exfalso. apply H2. rewrite app_nil_r in H1. subst b. rewrite Hs.
          apply elem_of_app. right. now left.
        - subst x. rewrite H1 in Hs.
          apply rparen_split_unique in Hs as [-> ->]; auto. }
      destruct b as [|x b].
      * intros b' tail' Hm. destruct (Huniq _ _ Hm) as [-> _].
        now destruct Hm as (_ & Hne & _).
      * destruct t as [|y t].
        -- intros b' tail' Hm. now destruct (Huniq _ _ Hm) as [_ ?].
        -- subst y. destruct (at_dollar t) eqn:Hd.
           ++ exists t. repeat split; try assumption; [ now f_equal | discriminate ].
           ++ intros b' tail' Hm. destruct (Huniq _ _ Hm) as [_ [= ->]].
              destruct Hm as (_ & _ & _ & Hd'). congruence.
    + intros b tail (H & _). injection H as H _. now apply Hc.
Qed.

Lemma search_paren_spec s :
  match search_paren s with
  | Some b =>
      exists pre tail,
        matches_at s pre b tail
        /\ forall pre' b' tail',
             (length pre' < length pre)%nat -> ~ matches_at s pre' b' tail'
  | None => forall pre b tail, ~ matches_at s pre b tail
  end.
Proof.
  induction s as [|c s IH].
  - simpl. intros pre b tail (rest & H & Hm & _).
    destruct pre; destruct rest; discriminate.
  - cbn [search_paren]. pose proof (match_paren_at_spec (c :: s)) as Hhere.
    destruct (match_paren_at (c :: s)) as [b|].
    + destruct Hhere as (tail & Hm). exists [], tail. split.
      * now exists (c :: s).
      * intros pre' b' tail' Hlen. simpl in Hlen. lia.
    + assert (forall pre b tail, matches_at (c :: s) pre b tail ->
                exists pre', pre = c :: pre' /\ matches_at s pre' b tail) as Hshift.
      { intros pre b tail (rest & H & Hm). destruct pre as [|x pre].
        - simpl in H. subst rest. now apply Hhere in Hm.
        - injection H as -> H. exists pre. split; [ reflexivity | ].
          now exists rest. }
      destruct (search_paren s) as [b|].
      * destruct IH as (pre & tail & (rest & Hs & Hm) & Hfirst).
        exists (c :: pre), tail. split.
        -- exists rest. split; [ simpl; now f_equal | exact Hm ].
        -- intros pre' b' tail' Hlen Hm'.
           apply Hshift in Hm' as (p & -> & Hm').
           apply (Hfirst p b' tail'); [ simpl in Hlen; lia | exact Hm' ].
      * intros pre b tail Hm. apply Hshift in Hm as (p & -> & Hm).
        now apply (IH p b tail).
Qed.

End CodeFacts.

Module CatalogFacts.
Import PyStr Dom Runtime Scraper Expect.
Import StripFacts CodeFacts.
Local Open Scope N_scope.
Section Catalog.
Context {U : Unicode}.

Lemma isspace_lf : isspace 10 = true.
Proof. reflexivity. Qed.

Lemma paren_token_matches s c :
  paren_token s c <-> exists pre, matches_at s pre c [].
Proof.
  split.
  - intros (pre & Hs & Hne & Hnot). exists pre, (40 :: c ++ [41]).
    split; [ exact Hs | ]. repeat split; auto.
  - intros (pre & rest & Hs & Hr & Hne & Hnot & _). exists pre.
    subst rest. auto.
Qed.

Lemma matches_at_length s pre b tail :
  matches_at s pre b tail ->
  length s = (length pre + length b + length tail + 2)%nat.
Proof.
  intros (rest & -> & -> & _). rewrite length_app. simpl.
  rewrite length_app. simpl. lia.
Qed.

Lemma extract_set_code_stripped s :
  (forall c, last s = Some c -> isspace c = false) ->
  code_of_name s (match search_paren s with
                  | Some group1 => group1
                  | None => u "UNKNOWN"
                  end).
Proof.
  intros Hlast. pose proof (search_paren_spec s) as H.
  destruct (search_paren s) as [b|].
  - destruct H as (pre & tail & Hm & Hfirst). left.
    assert (tail = []) as ->.
    { destruct Hm as (rest & Hs & Hr & _ & _ & Hd).
      destruct tail as [|x [|y tail]]; [ reflexivity | | discriminate ].
      simpl in Hd. apply N.eqb_eq in Hd as ->. exfalso.
      specialize (Hlast 10). rewrite isspace_lf in Hlast.
      enough (last s = Some 10) by (specialize (Hlast H); discriminate).
      subst s rest. rewrite last_app_cons.
      change (40 :: b ++ [41; 10]) with ((40 :: b) ++ [41; 10]).
      now rewrite last_app_cons. }
    split.
    + apply paren_token_matches. now exists pre.
    + intros c Hc. apply paren_token_matches in Hc as (pre' & Hc).
      destruct (Nat.le_gt_cases (length c) (length b)) as [Hle|Hgt];
        [ exact Hle | exfalso ].
      apply (Hfirst pre' c []); [ | exact Hc ].
      apply matches_at_length in Hc, Hm. simpl in *. lia.
  - right. split; [ | reflexivity ].
    intros c Hc. apply paren_token_matches in Hc as (pre & Hc).
    now apply (H pre c []).
Qed.

Lemma extract_set_code_spec set_name :
  code_of_name (strip set_name) (extract_set_code set_name).
Proof. apply extract_set_code_stripped, strip_last. Qed.

Lemma startswith_spec p s : startswith p s = true <-> exists t, s = p ++ t.
Proof.
  revert s. induction p as [|a p IH]; intros s; simpl.
  - split; [ now exists s | reflexivity ].
  - destruct s as [|b s].
    + split; [ discriminate | intros (t & H); discriminate ].
    + rewrite andb_true_iff, N.eqb_eq, IH. split.
      * intros (-> & t & ->). now exists t.
      * intros (t & [= -> ->]). split; [ reflexivity | now exists t ].
Qed.

(** What a link contributes to [set_links]. *)
Lemma set_link_of_spec link si :
  si ∈ set_link_of link ->
  get (u "href") link = Some (url si)
  /\ name si = strip (get_text link)
  /\ well_formed_ref si.
Proof.
  unfold set_link_of. destruct (get (u "href") link) as [href|];
    [ | intros H; now apply elem_of_nil in H ].
  destruct (_ && _) eqn:Hc; [ | intros H; now apply elem_of_nil in H ].
  intros H. apply list_elem_of_singleton in H as ->. simpl.
  repeat rewrite andb_true_iff in Hc. destruct Hc as ((((_ & Hp) & _) & _) & _).
  repeat split; [ exact Hp | ].
  rewrite <- (strip_idemp (get_text link)) at 1. apply extract_set_code_spec.
Qed.

Lemma unique_links_sublist seen l : unique_links seen l `sublist_of` l.
Proof.
  revert seen. induction l as [|si l IH]; intros seen; simpl.
  - constructor.
  - case_bool_decide.
    + apply sublist_cons, IH.
    + apply sublist_skip, IH.
Qed.

Lemma unique_links_fresh seen l si :
  si ∈ unique_links seen l -> url si ∉ seen.
Proof.
  revert seen. induction l as [|x l IH]; intros seen; simpl.
  - intros H. now apply elem_of_nil in H.
  - case_bool_decide as Hx.
    + apply IH.
    + rewrite elem_of_cons. intros [->|H]; [ exact Hx | ].
      apply IH in H. set_solver.
Qed.

Lemma unique_links_NoDup seen l : NoDup (List.map url (unique_links seen l)).
Proof.
  revert seen. induction l as [|x l IH]; intros seen; simpl.
  - constructor.
  - case_bool_decide as Hx; [ apply IH | ]. simpl. constructor; [ | apply IH ].
    intros Hin. apply list_elem_of_fmap in Hin as (y & Hy & Hin).
    apply unique_links_fresh in Hin. set_solver.
Qed.

Lemma unique_links_complete seen l si :
  si ∈ l -> url si ∉ seen -> url si ∈ List.map url (unique_links seen l).
Proof.
  revert seen. induction l as [|x l IH]; intros seen; simpl.
  - intros H. now apply elem_of_nil in H.
  - rewrite elem_of_cons. intros [->|Hin] Hs.
    + rewrite bool_decide_eq_false_2 by exact Hs. simpl. now left.
    + case_bool_decide as Hx; [ now apply IH | ]. simpl.
      destruct (decide (url si = url x)) as [Heq|Hne];
        [ rewrite Heq; now left | right ].
      apply IH; [ exact Hin | set_solver ].
Qed.

Lemma unique_links_first seen l si :
  si ∈ unique_links seen l -> first_with_url l si.
Proof.
  revert seen. induction l as [|x l IH]; intros seen; simpl.
  - intros H. now apply elem_of_nil in H.
  - case_bool_decide as Hx.
    + intros H. pose proof (unique_links_fresh _ _ _ H) as Hf.
      apply IH in H as (l1 & l2 & -> & Hn). exists (x :: l1), l2.
      split; [ reflexivity | ]. simpl. rewrite elem_of_cons.
      intros [Heq|Hin]; [ | now apply Hn ]. apply Hf. now rewrite Heq.
    + rewrite elem_of_cons. intros [->|H].
      * exists [], l. split; [ reflexivity | apply not_elem_of_nil ].
      * pose proof (unique_links_fresh _ _ _ H) as Hf.
        apply IH in H as (l1 & l2 & -> & Hn). exists (x :: l1), l2.
        split; [ reflexivity | ]. simpl. rewrite elem_of_cons.
        intros [Heq|Hin]; [ | now apply Hn ]. apply Hf. set_solver.
Qed.

(** C7.  Every reference [extract_set_links] returns has a URL that
    starts with [https://pkmncards.com/set/] and a code that is the
    non-empty text inside the trailing parentheses of its name, or
    ["UNKNOWN"] when the name does not end with such a token.  The
    references come in document order, one per URL, and the one kept for
    a URL is the first of the document.  [extract_set_links] returns
    these references for the page it fetched, and none when the fetch
    failed. *)
Theorem extract_set_links_refs :
  (forall doc,
     let candidates := flat_map set_link_of (find_all_href (u "a") doc) in
     let links := set_links_of_soup doc in
     Forall well_formed_ref links
     /\ Forall (fun si => exists link,
                  link ∈ find_all_href (u "a") doc
                  /\ get (u "href") link = Some (url si)
                  /\ name si = strip (get_text link)) links
     /\ links `sublist_of` candidates
     /\ NoDup (List.map url links)
     /\ (forall si, si ∈ candidates -> url si ∈ List.map url links)
     /\ Forall (first_with_url candidates) links)
  /\ (forall E w,
        match extract_set_links E w with
        | (Returned links, w') =>
            (get_page_content E base_url w = (Returned None, w') /\ links = [])
            \/ exists r,
                 get_page_content E base_url w = (Returned (Some r), w')
                 /\ links = set_links_of_soup (soup r)
        | (Raised e, w') => get_page_content E base_url w = (Raised e, w')
        end).
Proof.
  split.
  - intros doc candidates links.
    assert (forall si, si ∈ links -> si ∈ candidates) as Hsub.
    { intros si Hin. eapply elem_of_sublist; [ exact Hin | apply unique_links_sublist ]. }
    assert (forall si, si ∈ candidates -> exists link,
              link ∈ find_all_href (u "a") doc /\ si ∈ set_link_of link) as Hcand.
    { intros si Hin. apply list_elem_of_In, in_flat_map in Hin as (link & H1 & H2).
      exists link. now rewrite !list_elem_of_In. }
    repeat split.
    + apply Forall_forall. intros si Hin.
      destruct (Hcand si (Hsub si Hin)) as (link & _ & Hl).
      now apply set_link_of_spec in Hl.
    + apply Forall_forall. intros si Hin.
      destruct (Hcand si (Hsub si Hin)) as (link & Hd & Hl).
      apply set_link_of_spec in Hl as (H1 & H2 & _). now exists link.
    + apply unique_links_sublist.
    + apply unique_links_NoDup.
    + intros si Hin. apply unique_links_complete; [ exact Hin | set_solver ].
    + apply Forall_forall. intros si Hin. now apply unique_links_first in Hin.
  - intros E w. unfold extract_set_links, bind.
    destruct (get_page_content E base_url w) as [[[r|]|e] w1]; simpl.
    + right. now exists r.
    + now left.
    + reflexivity.
Qed.
End Catalog.
End CatalogFacts.

(** ** count_cards_in_set, get_card_images_from_set *)

Module ScanFacts.
Import PyStr Dom Runtime Scraper Hoare Stable Expect.
Local Open Scope py_scope.

(** Reading the network leaves the accumulators and the output tree
    alone. *)
#[global] Instance same_store_stable w0 :
  stable (same_store w0) (fun _ => same_store w0).
Proof.
  split; try (intros; assumption).
  intros w Hw. unfold tick. destruct (fuse w) as [[|n]|]; exact Hw.
Qed.

Section Scan.
Context {U : Unicode} (E : env).

Lemma count_article_valid n article :
  count_article n article = if valid_article article then n + 1 else n.
Proof.
  unfold count_article, valid_article.
  destruct (find_class _ _ article) as [card_link|]; [ | reflexivity ].
  destruct (find_class _ _ card_link) as [img_tag|]; reflexivity.
Qed.

Lemma scan_article_valid si cards article :
  length (scan_article si cards article) =
    if valid_article article then length cards + 1 else length cards.
Proof.
  unfold scan_article, valid_article.
  destruct (find_class _ _ article) as [card_link|]; [ | reflexivity ].
  destruct (find_class _ _ card_link) as [img_tag|]; [ | reflexivity ].
  destruct (nonempty _); [ | reflexivity ].
  destruct (parse_card_title _) as [name_ number]. apply length_app.
Qed.

Lemma count_fold articles : forall n,
  fold_left count_article articles n =
    n + length (List.filter valid_article articles).
Proof.
  induction articles as [|a l IH]; intros n; simpl; [ lia | ].
  rewrite IH, count_article_valid. destruct (valid_article a); simpl; lia.
Qed.

Lemma scan_fold si articles : forall cards,
  length (fold_left (scan_article si) articles cards) =
    length cards + length (List.filter valid_article articles).
Proof.
  induction articles as [|a l IH]; intros cards; simpl; [ lia | ].
  rewrite IH, scan_article_valid. destruct (valid_article a); simpl; lia.
Qed.

(** C4.  Started in the same world on the same page,
    [count_cards_in_set] returns the length of the list
    [get_card_images_from_set] returns: both keep the articles that have
    a card-image link, an image tag and a non-empty source, and both
    give nothing when the fetch fails.  The counter returns a number
    only and leaves both accumulators and the output tree as they
    were. *)
Theorem count_cards_in_set_is_length set_url si w :
  (forall doc,
     fold_left count_article (card_articles doc) 0 =
       length (List.filter valid_article (card_articles doc))
     /\ length (fold_left (scan_article si) (card_articles doc) []) =
       length (List.filter valid_article (card_articles doc)))
  /\ match count_cards_in_set E set_url si w,
           get_card_images_from_set E set_url si w with
     | (Returned n, w1), (Returned cards, w2) =>
         n = length cards /\ w1 = w2 /\ same_store w w1
     | (Raised e1, w1), (Raised e2, w2) => e1 = e2 /\ w1 = w2
     | _, _ => False
     end.
Proof.
  split.
  - intros doc. now rewrite count_fold, scan_fold.
  - pose proof (safe_count_cards_in_set E (same_store w) _ set_url si w) as Hs.
    unfold count_cards_in_set, get_card_images_from_set, bind in *.
    destruct (get_page_content E set_url w) as [[[r|]|e] w1]; simpl in *.
    + rewrite count_fold, scan_fold. repeat split; apply Hs; now repeat split.
    + repeat split; apply Hs; now repeat split.
    + now split.
Qed.

End Scan.
End ScanFacts.

(** ** The duplicate-filename loop *)

Module FilenameFacts.
Import PyStr Dom Runtime Scraper Expect.

Lemma digits_inj d d' : digits d = digits d' -> d = d'.
Proof.
  revert d'. induction d; intros d' H; destruct d'; simpl in H;
    try discriminate; try reflexivity;
    injection H as H; f_equal; now apply IHd.
Qed.

Lemma of_nat_inj n m : of_nat n = of_nat m -> n = m.
Proof.
  intros H. apply digits_inj in H.
  rewrite <- (Unsigned.of_to n), <- (Unsigned.of_to m). now rewrite H.
Qed.

Lemma stem_suffix name_ : stem name_ ++ suffix name_ = name_.
Proof.
  unfold stem, suffix. destruct (rfind 46 name_) as [i|];
    [ | apply app_nil_r ].
  destruct (_ && _); [ apply take_drop | apply app_nil_r ].
Qed.

Lemma numbered_inj orig i j : numbered orig i = numbered orig j -> i = j.
Proof.
  unfold numbered. intros H. apply app_inv_head in H.
  apply app_inv_head in H. apply app_inv_tail in H. now apply of_nat_inj.
Qed.

Lemma numbered_longer orig i : length orig < length (numbered orig i).
Proof.
  unfold numbered. rewrite <- (stem_suffix orig) at 1.
  rewrite !length_app. simpl. lia.
Qed.

Lemma candidate_inj orig i j : candidate orig i = candidate orig j -> i = j.
Proof.
  destruct i as [|i], j as [|j]; simpl; intros H.
  - reflexivity.
  - pose proof (numbered_longer orig (S j)) as Hl. rewrite <- H in Hl. lia.
  - pose proof (numbered_longer orig (S i)) as Hl. rewrite H in Hl. lia.
  - exact (numbered_inj orig _ _ H).
Qed.

(** The loop, started at the [j]-th candidate with at least one turn
    more than there are files on its way, stops at the first candidate
    that is not in the directory. *)
Lemma probe_finds fs orig fuel : forall (Y : gset pystr) j,
  size Y < fuel ->
  (forall i, j <= i -> candidate orig i ∈ fs -> candidate orig i ∈ Y) ->
  exists i,
    j <= i
    /\ probe fuel fs orig (candidate orig j) (S j) = Some (candidate orig i)
    /\ (candidate orig i ∉ fs)
    /\ forall i', j <= i' < i -> candidate orig i' ∈ fs.
Proof.
  induction fuel as [|fuel IH]; intros Y j Hsize HY; [ lia | ].
  simpl. case_bool_decide as Hin.
  - destruct (IH (Y ∖ {[candidate orig j]}) (S j)) as (i & Hi & Hp & Hf & Hbelow).
    + assert (size (Y ∖ {[candidate orig j]}) < size Y); [ | lia ].
      apply subset_size. pose proof (HY j (le_n _) Hin). set_solver.
    + intros i Hi Hfs. apply elem_of_difference. split.
      * apply HY; [ lia | exact Hfs ].
      * rewrite elem_of_singleton. intros Heq.
        apply candidate_inj in Heq. lia.
    + exists i. repeat split; [ lia | exact Hp | exact Hf | ].
      intros i' Hi'. destruct (decide (i' = j)) as [->|Hne]; [ exact Hin | ].
      apply Hbelow. lia.
  - exists j. repeat split; [ lia | exact Hin | ]. intros i' Hi'. lia.
Qed.

Lemma probe_enough fs orig :
  exists i,
    probe (S (size fs)) fs orig orig 1 = Some (candidate orig i)
    /\ (candidate orig i ∉ fs)
    /\ forall i', i' < i -> candidate orig i' ∈ fs.
Proof.
  destruct (probe_finds fs orig (S (size fs)) fs 0) as (i & _ & Hp & Hf & Hb).
  - lia.
  - auto.
  - exists i. repeat split; [ exact Hp | exact Hf | ].
    intros i' Hi'. apply Hb. lia.
Qed.

(** The path [download_image] writes to: the first candidate that does
    not exist. *)
Lemma unique_path_spec fs orig :
  exists i,
    unique_path fs orig = candidate orig i
    /\ (candidate orig i ∉ fs)
    /\ forall i', i' < i -> candidate orig i' ∈ fs.
Proof.
  destruct (probe_enough fs orig) as (i & Hp & Hf & Hb).
  exists i. unfold unique_path. rewrite Hp. auto.
Qed.

Lemma unique_path_fresh fs orig : unique_path fs orig ∉ fs.
Proof. destruct (unique_path_spec fs orig) as (i & -> & Hf & _). exact Hf. Qed.

End FilenameFacts.

(** ** Invariants of the writes *)

Module Store.
Import PyStr Dom Runtime Scraper Hoare Stable Expect.
Local Open Scope py_scope.
Section StoreRules.
Context {U : Unicode} (E : env).
Context (I : world -> Prop) (X : exn -> world -> Prop).
Context `{!stable I X} `{!stable_store I}.

Lemma safe_append_failed c : safe I X (append_failed c).
Proof.
  apply safe_bind; [ apply safe_step; assumption | intros [] ].
  apply safe_modify. intros w. apply store_failed.
Qed.

Lemma safe_append_downloaded c : safe I X (append_downloaded c).
Proof.
  apply safe_bind; [ apply safe_step; assumption | intros [] ].
  apply safe_modify. intros w. apply store_downloaded.
Qed.

Lemma safe_write_image filepath : safe I X (write_image E filepath).
Proof.
  apply safe_bind; [ apply safe_tick; assumption | intros [] ].
  destruct (writable E filepath).
  - apply safe_modify. intros w Hw. now apply stable_event, store_image.
  - now apply safe_raise.
  - apply safe_bind; [ | intros []; now apply safe_raise ].
    apply safe_modify. intros w. apply store_image.
Qed.

Lemma safe_download_image c : safe I X (download_image E c).
Proof.
  apply safe_try_except; [ assumption | auto | | ].
  - apply safe_bind; [ now apply safe_get_page_content | intros [r|] ].
    + apply safe_bind; [ apply safe_gets | intros filepath ].
      apply safe_bind; [ apply safe_write_image | intros [] ].
      apply safe_bind; [ | intros []; apply safe_ret ].
      apply safe_with_lock; [ assumption | apply safe_append_downloaded ].
    + apply safe_bind; [ apply safe_append_failed | intros []; apply safe_ret ].
  - apply safe_bind; [ now apply safe_log | intros [] ].
    apply safe_bind; [ | intros []; apply safe_ret ].
    apply safe_with_lock; [ assumption | apply safe_append_failed ].
Qed.

Lemma safe_save_metadata : safe I X save_metadata.
Proof.
  unfold save_metadata.
  apply safe_bind; [ apply safe_gets | intros downloaded ].
  apply safe_bind; [ apply safe_gets | intros failed_ ].
  repeat (apply safe_bind;
          [ first [ now apply safe_tick
                  | apply safe_modify; intros w;
                    first [ apply store_json | apply store_classes
                          | apply store_summary | now apply stable_event ] ]
          | intros [] ]).
  apply safe_modify. intros w. now apply stable_event.
Qed.

End StoreRules.
End Store.

(** ** download_image *)

Module DownloadFacts.
Import PyStr Dom Runtime Scraper Hoare Stable Store Expect.
Local Open Scope py_scope.
Section Download.
Context {U : Unicode} (E : env).

Lemma same_lists_blind w0 : blind (same_lists w0).
Proof. split; [ | split ]; intros; assumption. Qed.

#[global] Instance unrecorded_stable w0 :
  stable (same_lists w0) (unrecorded w0).
Proof.
  split; try (intros; assumption).
  - intros e w He. unfold unrecorded. now rewrite He.
  - intros w Hw. unfold tick. destruct (fuse w) as [[|n]|]; try exact Hw.
    reflexivity.
  - intros e w He. unfold unrecorded. now rewrite He.
Qed.

Lemma append_failed_spec w0 c :
  triple (same_lists w0) (append_failed c)
    (fun _ w => downloaded_cards w = downloaded_cards w0
                /\ failed_downloads w = failed_downloads w0 ++ [c])
    (fun e _ => e = KeyboardInterrupt).
Proof.
  eapply triple_bind.
  - apply triple_step; [ apply same_lists_blind | reflexivity ].
  - intros []. apply triple_modify. intros w (H1 & H2). simpl.
    now rewrite H1, H2.
Qed.

Lemma append_downloaded_spec w0 c :
  triple (same_lists w0) (append_downloaded c)
    (fun _ w => downloaded_cards w = downloaded_cards w0 ++ [c]
                /\ failed_downloads w = failed_downloads w0)
    (fun e _ => e = KeyboardInterrupt).
Proof.
  eapply triple_bind.
  - apply triple_step; [ apply same_lists_blind | reflexivity ].
  - intros []. apply triple_modify. intros w (H1 & H2). simpl.
    now rewrite H1, H2.
Qed.

Lemma write_image_spec w0 filepath :
  triple (same_lists w0) (write_image E filepath)
    (fun _ => same_lists w0) (unrecorded w0).
Proof.
  eapply triple_bind; [ apply (@stable_tick _ _ (unrecorded_stable w0)) | ].
  intros []. destruct (writable E filepath).
  - apply triple_modify. auto.
  - apply triple_raise. auto.
  - eapply triple_bind.
    + apply triple_modify with (Q := fun _ => same_lists w0). auto.
    + intros []. apply triple_raise. auto.
Qed.

Lemma download_image_triple card_info w :
  triple (same_lists w) (download_image E card_info)
    (recorded card_info w) (fun e _ => e = KeyboardInterrupt).
Proof.
  assert (forall e w', unrecorded w e w' ->
            if is_Exception e then same_lists w w' else e = KeyboardInterrupt)
    as Hun by auto.
  assert (forall e (w' : world), e = KeyboardInterrupt ->
            if is_Exception e then same_lists w w' else e = KeyboardInterrupt)
    as Hki by (now intros e w' ->).
  apply triple_try_except with (R := same_lists w).
  - eapply triple_bind.
    + eapply triple_exn; [ | exact Hun ].
      apply (safe_get_page_content E (same_lists w) (unrecorded w)).
    + intros [r|].
      * eapply triple_bind;
          [ apply triple_gets with (Q := fun _ => same_lists w); auto | ].
        intros filepath. eapply triple_bind.
        { eapply triple_exn; [ apply write_image_spec | exact Hun ]. }
        intros []. eapply triple_bind.
        { eapply triple_exn; [ | exact Hki ].
          apply with_lock_spec;
            [ apply same_lists_blind | | apply append_downloaded_spec ].
          auto. }
        intros []. apply triple_ret. intros w' H. now exists filepath.
      * eapply triple_bind.
        { eapply triple_exn; [ apply append_failed_spec | exact Hki ]. }
        intros []. apply triple_ret. auto.
  - eapply triple_bind;
      [ apply triple_modify with (Q := fun _ => same_lists w); auto | ].
    intros []. eapply triple_bind.
    + apply with_lock_spec; [ apply same_lists_blind | | apply append_failed_spec ].
      auto.
    + intros []. apply triple_ret. auto.
Qed.

Lemma download_image_spec card_info w :
  match download_image E card_info w with
  | (Returned success, w') => recorded card_info w success w'
  | (Raised e, w') => e = KeyboardInterrupt
  end.
Proof. apply (download_image_triple card_info w w). now split. Qed.

End Download.

#[global] Instance no_interrupt_stable : stable no_interrupt not_interrupted.
Proof.
  split; try (intros; assumption).
  - intros e w _ (_ & H). exact H.
  - intros w Hw. unfold tick. unfold no_interrupt in Hw. now rewrite Hw.
  - intros e w He Hw. split; [ | exact Hw ]. now intros ->.
Qed.

#[global] Instance no_interrupt_store : stable_store no_interrupt.
Proof. split; intros; assumption. Qed.

Section Download.
Context {U : Unicode} (E : env).


(** Whenever the image cannot be fetched, the card is appended to
    [failed_downloads] by a worker that has not taken the lock. *)
Lemma failed_fetch_never_locks c w w1 :
  get_page_content E (image_url c) w = (Returned None, w1) ->
  fuse w1 = None ->
  download_image E c w
  = (Returned false, push_failed c (add_event (AppendFailed c) w1)).
Proof.
  intros Hg Hf. unfold download_image, try_except, bind. rewrite Hg.
  unfold append_failed, step, bind, modify, tick. now rewrite Hf.
Qed.

Lemma worker_returns card_info w :
  fuse w = None ->
  exists success w', download_image E card_info w = (Returned success, w').
Proof.
  intros Hf. pose proof (download_image_spec E card_info w) as Hspec.
  pose proof (safe_download_image E no_interrupt not_interrupted card_info w Hf)
    as Hsafe.
  destruct (download_image E card_info w) as [[success|e] w'].
  - now exists success, w'.
  - subst e. now destruct Hsafe as [Hne _].
Qed.

End Download.

(** C3 fails on the path of [download_image] where the image cannot
    be fetched: the card is appended to [failed_downloads] and the lock
    is never taken. *)
Theorem failed_fetch_appends_unlocked :
  forall U : Unicode,
    let run := @download_image U down pikachu fresh in
    run.1 = Returned false
    /\ failed_downloads run.2 = [pikachu]
    /\ (Acquire ∉ events run.2)
    /\ unlocked_mutations false (events run.2) = [AppendFailed pikachu].
Proof.
  intros U0. vm_compute. repeat split.
  intros H. repeat (apply elem_of_cons in H as [H|H]; [ discriminate | ]).
  now apply elem_of_nil in H.
Qed.

(** The two other paths append under the lock. *)
Lemma other_paths_append_locked :
  forall U : Unicode,
    let ok := @download_image U up pikachu fresh in
    let ko := @download_image U disk_full pikachu fresh in
    ok.1 = Returned true
    /\ unlocked_mutations false (events ok.2) = []
    /\ ko.1 = Returned false
    /\ unlocked_mutations false (events ko.2) = [].
Proof. intros U0. vm_compute. repeat split. Qed.

End DownloadFacts.

(** ** save_metadata *)

Module OrderFacts.
Import PyStr Dom Runtime Scraper Expect.
Local Open Scope N_scope.

Lemma ltb_irrefl a : ltb a a = false.
Proof.
  induction a as [|x a IH]; simpl; [ reflexivity | ].
  now rewrite N.ltb_irrefl, N.eqb_refl, IH.
Qed.

Lemma ltb_trichotomy a : forall b, ltb a b = true \/ a = b \/ ltb b a = true.
Proof.
  induction a as [|x a IH]; intros [|y b]; simpl; auto.
  destruct (N.lt_trichotomy x y) as [H|[->|H]].
  - left. apply N.ltb_lt in H. now rewrite H.
  - rewrite N.ltb_irrefl, N.eqb_refl. simpl.
    destruct (IH b) as [H|[->|H]]; auto.
  - right. right. apply N.ltb_lt in H. now rewrite H.
Qed.

Lemma ltb_trans a : forall b c, ltb a b = true -> ltb b c = true -> ltb a c = true.
Proof.
  induction a as [|x a IH]; intros [|y b] [|z c]; simpl; try discriminate; auto.
  rewrite !orb_true_iff, !andb_true_iff, !N.ltb_lt, !N.eqb_eq.
  intros [H1|[-> H1]] [H2|[-> H2]].
  - left. lia.
  - now left.
  - now left.
  - right. split; [ reflexivity | ]. now apply (IH b c).
Qed.

Lemma ltb_asym a b : ltb a b = true -> ltb b a = false.
Proof.
  intros H. destruct (ltb b a) eqn:H'; [ | reflexivity ].
  pose proof (ltb_trans _ _ _ H H') as Haa. now rewrite ltb_irrefl in Haa.
Qed.

#[global] Instance str_le_total : Total str_le.
Proof.
  intros a b. unfold str_le, leb.
  destruct (ltb b a) eqn:H; [ right | now left ].
  now rewrite (ltb_asym _ _ H).
Qed.

#[global] Instance str_le_trans : Transitive str_le.
Proof.
  intros a b c. unfold str_le, leb. rewrite !negb_true_iff. intros Hba Hcb.
  destruct (ltb c a) eqn:Hca; [ exfalso | reflexivity ].
  destruct (ltb_trichotomy a b) as [H|[->|H]]; [ | congruence | congruence ].
  pose proof (ltb_trans _ _ _ Hca H). congruence.
Qed.

#[global] Instance str_le_antisym : AntiSymm eq str_le.
Proof.
  intros a b. unfold str_le, leb. rewrite !negb_true_iff. intros Hba Hab.
  destruct (ltb_trichotomy a b) as [H|[->|H]]; congruence.
Qed.

Lemma item_le_fst a b : item_le a b -> str_le a.1 b.1.
Proof.
  unfold item_le, str_le, leb, eqb. rewrite orb_true_iff, andb_true_iff.
  intros [H|[H _]].
  - now rewrite (ltb_asym _ _ H).
  - apply bool_decide_eq_true in H. rewrite H. now rewrite ltb_irrefl.
Qed.

#[global] Instance item_le_total : Total item_le.
Proof.
  intros [a n] [b m]. unfold item_le, eqb. simpl.
  destruct (ltb_trichotomy a b) as [H|[->|H]].
  - left. now rewrite H.
  - rewrite ltb_irrefl, bool_decide_eq_true_2 by reflexivity. simpl.
    destruct (Nat.le_ge_cases n m) as [H|H].
    + left. now apply Nat.leb_le.
    + right. now apply Nat.leb_le.
  - right. now rewrite H.
Qed.

#[global] Instance item_le_trans : Transitive item_le.
Proof.
  intros [a n] [b m] [c k]. unfold item_le, eqb. simpl.
  rewrite !orb_true_iff, !andb_true_iff, !bool_decide_eq_true, !Nat.leb_le.
  intros [H1|[-> H1]] [H2|[-> H2]].
  - left. now apply (ltb_trans a b c).
  - now left.
  - now left.
  - right. split; [ reflexivity | lia ].
Qed.

End OrderFacts.

Module MetadataFacts.
Import PyStr Dom Runtime Scraper Expect.
Import OrderFacts.

Lemma pokemon_names_sorted downloaded :
  StronglySorted str_le (pokemon_names_of downloaded).
Proof. apply StronglySorted_merge_sort; apply _. Qed.

Lemma pokemon_names_elem downloaded n :
  n ∈ pokemon_names_of downloaded <->
  exists c, c ∈ downloaded /\ pokemon_name c = n.
Proof.
  unfold pokemon_names_of. rewrite merge_sort_Permutation.
  rewrite elem_of_elements, elem_of_list_to_set, list_elem_of_fmap.
  split; intros (c & H1 & H2); exists c; auto.
Qed.

Lemma pokemon_names_NoDup downloaded : NoDup (pokemon_names_of downloaded).
Proof.
  unfold pokemon_names_of. rewrite merge_sort_Permutation.
  apply NoDup_elements.
Qed.

(** [set()] gives its elements in an order of its own; the sorted list
    does not depend on it. *)
Lemma pokemon_names_any_order downloaded (l : list pystr) :
  NoDup l ->
  (forall n, n ∈ l <-> exists c, c ∈ downloaded /\ pokemon_name c = n) ->
  merge_sort str_le l = pokemon_names_of downloaded.
Proof.
  intros Hl Hin. apply (StronglySorted_unique str_le).
  - apply StronglySorted_merge_sort; apply _.
  - apply pokemon_names_sorted.
  - rewrite merge_sort_Permutation. unfold pokemon_names_of.
    rewrite merge_sort_Permutation. apply NoDup_Permutation.
    + exact Hl.
    + apply NoDup_elements.
    + intros n. rewrite Hin, elem_of_elements, elem_of_list_to_set,
        list_elem_of_fmap.
      split; intros (c & H1 & H2); exists c; auto.
Qed.

Lemma count_set_lookup sets c n :
  count_set sets c !! n =
    if decide (set_name c = n) then Some (default 0 (sets !! n) + 1)
    else sets !! n.
Proof.
  unfold count_set. destruct (decide (set_name c = n)) as [<-|Hne].
  - rewrite lookup_insert_eq. f_equal. f_equal.
    case_bool_decide as Hd.
    + apply elem_of_dom in Hd as [k Hk]. rewrite Hk. simpl.
      now apply lookup_total_correct.
    + apply not_elem_of_dom in Hd. rewrite Hd. simpl.
      now rewrite lookup_total_insert_eq.
  - rewrite lookup_insert_ne by exact Hne.
    case_bool_decide; [ reflexivity | ]. now rewrite lookup_insert_ne.
Qed.

Lemma sets_fold_lookup downloaded n : forall sets,
  fold_left count_set downloaded sets !! n =
    match cards_of_set n downloaded with
    | O => sets !! n
    | S k => Some (default 0 (sets !! n) + S k)
    end.
Proof.
  unfold cards_of_set.
  induction downloaded as [|c l IH]; intros sets; simpl; [ reflexivity | ].
  rewrite IH, count_set_lookup. unfold eqb.
  destruct (decide (set_name c = n)) as [Heq|Hne].
  - rewrite bool_decide_eq_true_2 by exact Heq. simpl.
    destruct (length _); f_equal; lia.
  - rewrite bool_decide_eq_false_2 by exact Hne. reflexivity.
Qed.

Lemma sets_of_lookup downloaded n k :
  sets_of downloaded !! n = Some k <->
  k = cards_of_set n downloaded /\ 0 < k.
Proof.
  unfold sets_of. rewrite sets_fold_lookup, lookup_empty. simpl.
  destruct (cards_of_set n downloaded); split.
  - discriminate.
  - intros [-> H]. lia.
  - intros [= <-]. split; lia.
  - intros [-> _]. f_equal.
Qed.

Lemma sorted_items_elem downloaded n k :
  (n, k) ∈ sorted_items (sets_of downloaded) <->
  k = cards_of_set n downloaded /\ 0 < k.
Proof.
  unfold sorted_items. rewrite merge_sort_Permutation, elem_of_map_to_list.
  apply sets_of_lookup.
Qed.

Lemma sorted_items_sorted sets :
  StronglySorted (fun a b => str_le a.1 b.1) (sorted_items sets).
Proof.
  unfold sorted_items.
  pose proof (StronglySorted_merge_sort item_le (map_to_list sets)) as H.
  induction H as [|a l Hl IH Ha]; constructor; [ exact IH | ].
  eapply Forall_impl; [ exact Ha | ]. intros b. apply item_le_fst.
Qed.

Lemma sorted_items_NoDup sets : NoDup (sorted_items sets).*1.
Proof.
  unfold sorted_items. rewrite merge_sort_Permutation.
  apply NoDup_fst_map_to_list.
Qed.

End MetadataFacts.

Module SaveFacts.
Import PyStr Dom Runtime Scraper Expect.
Local Open Scope py_scope.
Import OrderFacts MetadataFacts.

Lemma save_metadata_writes w :
  match save_metadata w with
  | (Returned _, w') =>
      (cards_metadata_json w'
         = Some (json_of (downloaded_cards w) (failed_downloads w))
       /\ pokemon_classes_txt w' = Some (classes_of (downloaded_cards w))
       /\ download_summary_txt w'
          = Some (summary_of (downloaded_cards w) (failed_downloads w)))
      /\ same_lists w w' /\ images w' = images w
  | (Raised e, w') =>
      e = KeyboardInterrupt /\ fuse w <> None /\ fuse w' = None
      /\ same_lists w w' /\ images w' = images w
  end.
Proof.
  destruct w as [req evs dl fl ex im j c s f]. unfold same_lists.
  cbv [save_metadata gets bind tick modify ret put_json put_classes
       put_summary add_event set_fuse fuse downloaded_cards failed_downloads
       images cards_metadata_json pokemon_classes_txt download_summary_txt].
  generalize (json_of dl fl) (classes_of dl) (summary_of dl fl).
  intros J C S.
  destruct f as [[|[|[|n]]]|]; repeat split; discriminate.
Qed.

Lemma save_metadata_spec w :
  match save_metadata w with
  | (Returned _, w') =>
      flushed w' /\ same_lists w w' /\ images w' = images w
  | (Raised e, w') =>
      e = KeyboardInterrupt /\ fuse w <> None /\ fuse w' = None
      /\ same_lists w w' /\ images w' = images w
  end.
Proof.
  pose proof (save_metadata_writes w) as H.
  destruct (save_metadata w) as [[[]|e] w']; [ | exact H ].
  destruct H as ((Hj & Hc & Hs) & (Hd & Hf) & Hi).
  split; [ | now split ]. unfold flushed. now rewrite Hd, Hf.
Qed.

(** C9.  [save_metadata] writes to [pokemon_classes.txt] one line
    [{index}: {name}] per distinct name of a downloaded card, the names
    in lexicographic order and the indices counting from 0 in that
    order; and to [download_summary.txt], after six header lines, one
    line per set that has a downloaded card, with the number of its
    downloaded cards, the sets in lexicographic order of their names. *)
Theorem save_metadata_files :
  (forall w,
     match save_metadata w with
     | (Returned _, w') =>
         pokemon_classes_txt w' = Some (classes_of (downloaded_cards w))
         /\ download_summary_txt w'
            = Some (summary_of (downloaded_cards w) (failed_downloads w))
     | (Raised e, _) => e = KeyboardInterrupt /\ fuse w <> None
     end)
  /\ (forall downloaded,
        let names := pokemon_names_of downloaded in
        classes_of downloaded
          = imap (fun i n => of_nat i ++ u ": " ++ n ++ [10%N]) names
        /\ StronglySorted str_le names
        /\ NoDup names
        /\ forall n, n ∈ names <->
                     exists c, c ∈ downloaded /\ pokemon_name c = n)
  /\ (forall downloaded failed_,
        let items := sorted_items (sets_of downloaded) in
        (exists header,
           length header = 6
           /\ summary_of downloaded failed_
              = header
                ++ List.map (fun item => u "  " ++ item.1 ++ u ": "
                                           ++ of_nat item.2 ++ u " cards"
                                           ++ [10%N]) items)
        /\ StronglySorted (fun a b => str_le a.1 b.1) items
        /\ NoDup items.*1
        /\ forall n k, (n, k) ∈ items <->
                       k = cards_of_set n downloaded /\ 0 < k).
Proof.
  split; [ | split ].
  - intros w. pose proof (save_metadata_spec w) as H.
    destruct (save_metadata w) as [[[]|e] w'].
    + destruct H as ((_ & Hc & Hs) & (Hd & Hf) & _).
      now rewrite Hc, Hs, Hd, Hf.
    + now destruct H as (H1 & H2 & _).
  - intros downloaded names. split; [ reflexivity | ].
    split; [ apply pokemon_names_sorted | ].
    split; [ apply pokemon_names_NoDup | ].
    intros n. apply pokemon_names_elem.
  - intros downloaded failed_ items. split.
    { eexists. split; [ | reflexivity ]. reflexivity. }
    split; [ apply sorted_items_sorted | ].
    split; [ apply sorted_items_NoDup | ].
    intros n k. apply sorted_items_elem.
Qed.

End SaveFacts.

(** ** scrape_all_cards, main *)

Module Orchestration.
Import PyStr Dom Runtime Scraper Hoare Stable Store Expect.
Local Open Scope py_scope.
Import DownloadFacts SaveFacts.

Section Rules.
Context {U : Unicode} (E : env).
Context (I : world -> Prop) (X : exn -> world -> Prop) `{!stable I X}.
Hypothesis I_fuse : forall f w, I w -> I (set_fuse f w).
Hypothesis I_download : forall c, safe I X (download_image E c).
Hypothesis I_save : safe I X save_metadata.

(** A pool worker ends its card; the main thread finds nothing to do
    in its [except] clause. *)
Lemma collect_future_returns c w :
  exists success w',
    download_image E c (set_fuse None w) = (Returned success, w')
    /\ collect_future E c w = (Returned tt, set_fuse (fuse w) w').
Proof.
  destruct (worker_returns E c (set_fuse None w) eq_refl) as (b & w' & H).
  exists b, w'. split; [ exact H | ].
  unfold collect_future, in_worker, bind. now rewrite H.
Qed.

Lemma safe_collect_future c : safe I X (collect_future E c).
Proof.
  intros w Hw. destruct (collect_future_returns c w) as (b & w' & Hd & ->).
  apply I_fuse. pose proof (I_download c (set_fuse None w) (I_fuse _ _ Hw)) as H.
  now rewrite Hd in H.
Qed.

Lemma safe_download_batch parallel max_workers cards :
  safe I X (download_batch E parallel max_workers cards).
Proof.
  unfold download_batch. destruct (_ && _).
  - apply safe_bind; [ | intros []; now apply safe_sleep ].
    apply safe_for_each. apply safe_collect_future.
  - apply safe_for_each. intros c.
    apply safe_bind; [ apply I_download | intros _; now apply safe_sleep ].
Qed.

Lemma safe_process_set parallel max_workers entry :
  safe I X (process_set E parallel max_workers entry).
Proof.
  destruct entry as [si expected_count]. unfold process_set.
  apply safe_bind; [ now apply safe_get_card_images_from_set | intros [|c cards] ].
  - now apply safe_log.
  - apply safe_bind; [ apply safe_download_batch | intros [] ].
    apply safe_bind; [ apply I_save | intros []; now apply safe_sleep ].
Qed.

Lemma safe_scrape_all_cards parallel max_workers skip_count :
  safe I X (scrape_all_cards E parallel max_workers skip_count).
Proof.
  apply safe_bind; [ now apply safe_discover | intros [set_counts|] ].
  - apply safe_bind; [ | intros []; apply I_save ].
    apply safe_for_each. intros entry. apply safe_process_set.
  - now apply safe_ret.
Qed.

End Rules.
End Orchestration.

Module FlushFacts.
Import PyStr Dom Runtime Scraper Hoare Stable Store Expect.
Local Open Scope py_scope.
Import DownloadFacts SaveFacts ScanFacts Orchestration.

#[global] Instance interrupt_spent_stable : stable anywhere interrupt_spent.
Proof.
  split; try (intros; exact I).
  - intros w _. unfold tick. destruct (fuse w) as [[|n]|]; try exact I.
    intros _. reflexivity.
  - intros e w He _ ->. discriminate.
  - intros e ev w H. exact H.
Qed.

#[global] Instance anywhere_store : stable_store anywhere.
Proof. split; intros; exact I. Qed.


Section Flush.
Context {U : Unicode} (E : env).







End Flush.
End FlushFacts.

(** ** count_total_cards and the head of scrape_all_cards *)

Module CountFacts.
Import PyStr Dom Runtime Scraper Hoare Stable Store Expect.
Local Open Scope py_scope.
Section Count.
Context {U : Unicode} (E : env).

Lemma step_raises ev w :
  match step ev w with
  | (Returned _, _) => True
  | (Raised e, _) => e = KeyboardInterrupt
  end.
Proof.
  unfold step, bind, tick, modify. now destruct (fuse w) as [[|n]|].
Qed.

(** A turn of the counting loop adds one entry for its set: the count
    of its page, or 0 when [count_cards_in_set] raised.  Only Ctrl-C
    ends the loop early. *)
Lemma count_one_spec total_count set_counts si w :
  match count_one E (total_count, set_counts) si w with
  | (Returned acc, _) =>
      exists count, acc = (total_count + count, set_counts ++ [(si, count)])
  | (Raised e, _) => e = KeyboardInterrupt
  end.
Proof.
  unfold count_one, try_except, bind.
  destruct (count_cards_in_set E (url si) si w) as [[count|e] w1].
  - pose proof (step_raises (Sleep Tenth) w1) as Hs. unfold sleep.
    destruct (step (Sleep Tenth) w1) as [[[]|e] w2].
    + now exists count.
    + subst e. reflexivity.
  - destruct e; simpl; [ reflexivity | | ]; exists 0;
      now rewrite Nat.add_0_r.
Qed.

Lemma count_loop_spec set_links : forall total_count set_counts w,
  match count_loop E (total_count, set_counts) set_links w with
  | (Returned (total, counts), _) =>
      exists ns,
        length ns = length set_links
        /\ counts = set_counts ++ zip set_links ns
        /\ total = total_count + sum_list ns
  | (Raised e, _) => e = KeyboardInterrupt
  end.
Proof.
  induction set_links as [|si rest IH]; intros total_count set_counts w;
    cbn [count_loop].
  - exists []. simpl. now rewrite app_nil_r, Nat.add_0_r.
  - unfold bind. pose proof (count_one_spec total_count set_counts si w) as H1.
    destruct (count_one E (total_count, set_counts) si w) as [[acc|e] w1];
      [ | exact H1 ].
    destruct H1 as (n & ->).
    specialize (IH (total_count + n) (set_counts ++ [(si, n)]) w1).
    destruct (count_loop E _ rest w1) as [[[total counts]|e] w2]; [ | exact IH ].
    destruct IH as (ns & Hlen & -> & ->). exists (n :: ns). simpl.
    repeat split; [ now f_equal | now rewrite <- app_assoc | lia ].
Qed.

End Count.
End CountFacts.

Module DiscoverFacts.
Import PyStr Dom Runtime Scraper Hoare Stable Store Expect.
Local Open Scope py_scope.
Import CountFacts.
Section Discover.
Context {U : Unicode} (E : env).

Lemma discover_counts w :
  match extract_set_links E w with
  | (Returned set_links, _) =>
      match discover E false w with
      | (Returned d, w') =>
          exists counts,
            length counts = length set_links
            /\ total_cards_expected w' = sum_list counts
            /\ match d with
               | None => sum_list counts = 0
               | Some set_counts =>
                   0 < sum_list counts /\ set_counts = zip set_links counts
               end
      | (Raised e, _) => e = KeyboardInterrupt
      end
  | (Raised e, w0) => discover E false w = (Raised e, w0)
  end.
Proof.
  unfold discover, count_total_cards. cbn [negb]. unfold bind.
  destruct (extract_set_links E w) as [[[|si rest]|e] w0]; [ | | reflexivity ].
  - exists []. simpl. auto.
  - pose proof (count_loop_spec E (si :: rest) 0 [] w0) as H.
    destruct (count_loop E (0, []) (si :: rest) w0) as [[[total counts]|e] w1];
      [ | exact H ].
    destruct H as (ns & Hlen & -> & ->). simpl.
    destruct (sum_list ns) as [|k] eqn:Hsum; simpl.
    + exists ns. now rewrite Hsum.
    + exists ns. rewrite Hsum. repeat split; [ exact Hlen | lia ].
Qed.

(** C5 (as amended).  With the pre-count phase on, the run stops
    before the download phase exactly when the counts of the discovered
    collections add up to 0: when no collection was discovered, and
    also when every discovered collection counted 0.  Every discovered
    collection gets a count, in discovery order; a page that cannot be
    fetched counts 0 and an exception in the count is replaced by 0, so
    that only Ctrl-C ends the scan early.  When the total is positive
    the run goes through the download phase of every discovered
    collection and the final save. *)
Theorem precount_decides parallel max_workers w :
  match extract_set_links E w with
  | (Returned set_links, _) =>
      match discover E false w with
      | (Returned d, w') =>
          exists counts,
            length counts = length set_links
            /\ total_cards_expected w' = sum_list counts
            /\ match d with
               | None => sum_list counts = 0
               | Some set_counts =>
                   0 < sum_list counts /\ set_counts = zip set_links counts
               end
      | (Raised e, _) => e = KeyboardInterrupt
      end
  | (Raised e, w0) => discover E false w = (Raised e, w0)
  end
  /\ match discover E false w with
     | (Returned None, w') =>
         scrape_all_cards E parallel max_workers false w = (Returned tt, w')
     | (Returned (Some set_counts), w') =>
         scrape_all_cards E parallel max_workers false w
         = (for_each (process_set E parallel max_workers) set_counts
            >> save_metadata) w'
     | (Raised e, w') =>
         scrape_all_cards E parallel max_workers false w = (Raised e, w')
     end
  /\ (forall si,
        match get_page_content E (url si) w with
        | (Returned None, w1) =>
            count_cards_in_set E (url si) si w = (Returned 0, w1)
        | _ => True
        end)
  /\ (forall total_count set_counts si,
        match count_cards_in_set E (url si) si w with
        | (Raised e, w1) =>
            if is_Exception e then
              count_one E (total_count, set_counts) si w
              = (Returned (total_count, set_counts ++ [(si, 0)]),
                 add_event (Log (ErrorCounting (name si))) w1)
            else True
        | _ => True
        end).
Proof.
  split; [ apply discover_counts | ]. split; [ | split ].
  - unfold scrape_all_cards, bind.
    now destruct (discover E false w) as [[[set_counts|]|e] w'].
  - intros si. unfold count_cards_in_set, bind.
    now destruct (get_page_content E (url si) w) as [[[r|]|e] w1].
  - intros total_count set_counts si. unfold count_one, try_except, bind.
    destruct (count_cards_in_set E (url si) si w) as [[n|e] w1]; [ exact I | ].
    now destruct e.
Qed.

End Discover.

(** C5, as stated, fails: one collection is discovered, its page
    cannot be fetched, it counts 0, and the run ends with "No cards
    found to download!" before any download. *)
Lemma one_set_without_cards_aborts :
  (forall U : Unicode,
     (@extract_set_links U lonely fresh).1 = Returned [base_set])
  /\ (forall (U : Unicode) parallel max_workers,
        let run := @scrape_all_cards U lonely parallel max_workers false fresh in
        (@discover U lonely false fresh).1 = Returned None
        /\ run.1 = Returned tt
        /\ last (events run.2) = Some (Log NoCardsFoundToDownload)
        /\ downloaded_cards run.2 = []
        /\ cards_metadata_json run.2 = None).
Proof.
  split.
  - intros U0. vm_compute. reflexivity.
  - intros U0 parallel max_workers. vm_compute. repeat split.
Qed.

End DiscoverFacts.

(** ** Local paths *)

Module RaceFacts.
Import PyStr Dom Runtime Scraper Hoare Stable Store Expect.
Local Open Scope py_scope.
Import Race FilenameFacts.

(** A worker that runs alone leaves the loop with the path
    [unique_path] computes, writes it and records it. *)
Lemma alone_probe fs ws orig fuel : forall fp k p,
  probe fuel fs orig fp k = Some p ->
  exists n c,
    alone n {| dir := fs; written := ws |}
          {| at_ := AtExists; original_filepath := orig;
             filepath := fp; counter := k |}
    = ({| dir := {[p]} ∪ fs; written := ws ++ [p] |},
       {| at_ := Finished; original_filepath := orig;
          filepath := p; counter := c |}).
Proof.
  induction fuel as [|fuel IH]; intros fp k p; simpl; [ discriminate | ].
  case_bool_decide as Hin.
  - intros H. destruct (IH _ _ _ H) as (n & c & Hn).
    exists (S n), c. simpl. unfold step_worker. simpl.
    now rewrite bool_decide_eq_true_2 by exact Hin.
  - intros [= <-]. exists 2, k. simpl. unfold step_worker. simpl.
    now rewrite bool_decide_eq_false_2 by exact Hin.
Qed.

Lemma alone_unique_path fs ws filename_ :
  exists n c,
    alone n {| dir := fs; written := ws |} (start filename_)
    = ({| dir := {[unique_path fs filename_]} ∪ fs;
          written := ws ++ [unique_path fs filename_] |},
       {| at_ := Finished; original_filepath := filename_;
          filepath := unique_path fs filename_; counter := c |}).
Proof.
  destruct (probe_enough fs filename_) as (i & Hp & _).
  unfold unique_path. rewrite Hp. now apply alone_probe with (fuel := S (size fs)).
Qed.

(** Whatever the file name and the directory: two workers that both
    find the path free write and record the same path. *)
Lemma both_exist_first_any fs ws f :
  f ∉ fs ->
  written (run [0; 1; 0; 1] {| dir := fs; written := ws |}
               [start f; start f]).1
  = ws ++ [f; f].
Proof.
  intros Hf. simpl. unfold step_worker. simpl.
  rewrite !bool_decide_eq_false_2 by exact Hf. simpl.
  now rewrite <- app_assoc.
Qed.

(** C2 fails when [download_cards_parallel] runs two cards with the
    same file name and both workers call [filepath.exists()] before
    either opens its file: both write to the original path and both
    record it.  (One after the other, the second gets the suffix
    [_1].) *)
Theorem two_workers_one_path :
  let filename_ := u "Pikachu_BS_58.jpg" in
  (forall U : Unicode, @image_filename U pikachu = filename_)
  /\ List.map at_ (both_exist_first filename_).2 = [Finished; Finished]
  /\ written (both_exist_first filename_).1 = [filename_; filename_]
  /\ ~ NoDup (written (both_exist_first filename_).1)
  /\ written (one_then_other filename_).1
     = [filename_; u "Pikachu_BS_58_1.jpg"].
Proof.
  split; [ intros U0; reflexivity | ].
  split; [ vm_compute; reflexivity | ].
  split; [ vm_compute; reflexivity | ].
  split; [ | vm_compute; reflexivity ].
  intros H. vm_compute in H. apply NoDup_cons in H as [H _].
  apply H. now left.
Qed.

End RaceFacts.

Module UniqueFacts.
Import PyStr Dom Runtime Scraper Hoare Stable Store Expect.
Local Open Scope py_scope.
Import FilenameFacts DownloadFacts SaveFacts Orchestration.

Lemma paths_unique_ext w w' :
  downloaded_cards w' = downloaded_cards w -> images w' = images w ->
  paths_unique w -> paths_unique w'.
Proof. unfold paths_unique. now intros -> ->. Qed.

#[global] Instance paths_unique_stable :
  stable paths_unique (fun _ => paths_unique).
Proof.
  split; try (intros; assumption).
  intros w Hw. unfold tick. destruct (fuse w) as [[|n]|]; exact Hw.
Qed.

Lemma path_free_blind f : blind (path_free f).
Proof. split; [ | split ]; intros; assumption. Qed.

Lemma paths_unique_failed c w : paths_unique w -> paths_unique (push_failed c w).
Proof. apply paths_unique_ext; reflexivity. Qed.

Lemma path_free_fresh f w :
  paths_unique w -> f ∉ images w -> path_free f w.
Proof.
  intros Hw Hf. split; [ exact Hw | ]. intros Hin.
  apply list_elem_of_fmap in Hin as (c & Hc & Hin).
  destruct Hw as [_ Hall]. rewrite Forall_forall in Hall.
  destruct (Hall c Hin) as (g & Hg & Hgi). rewrite Hg in Hc.
  injection Hc as Hc. now subst g.
Qed.

Lemma path_free_written f w : path_free f w -> path_free f (add_image f w).
Proof.
  intros ((Hnd & Hall) & Hfree). repeat split; try assumption.
  eapply Forall_impl; [ exact Hall | ]. intros c (g & Hg & Hgi).
  exists g. split; [ exact Hg | ]. simpl. set_solver.
Qed.

Lemma path_free_recorded c f w :
  path_free f w -> f ∈ images w ->
  paths_unique (push_downloaded (with_local_path c f) w).
Proof.
  intros ((Hnd & Hall) & Hfree) Hf. split; simpl.
  - rewrite map_app. simpl. apply NoDup_app. repeat split.
    + exact Hnd.
    + intros p Hp Hp'. apply list_elem_of_singleton in Hp'. now subst p.
    + apply NoDup_singleton.
  - apply Forall_app. split; [ exact Hall | ].
    constructor; [ | constructor ]. now exists f.
Qed.

Section Unique.
Context {U : Unicode} (E : env).

Lemma download_image_unique c : safe paths_unique (fun _ => paths_unique)
                                     (download_image E c).
Proof.
  apply safe_try_except; [ apply _ | auto | | ].
  - apply safe_bind; [ apply safe_get_page_content; apply _ | intros [r|] ].
    + eapply triple_bind.
      { apply triple_gets
          with (Q := fun f w => path_free f w /\ f ∉ images w).
        intros w Hw. split; [ | apply unique_path_fresh ].
        apply path_free_fresh; [ exact Hw | apply unique_path_fresh ]. }
      intros f. eapply triple_bind.
      { (* write_image *)
        eapply triple_bind
          with (R := fun _ w => path_free f w /\ f ∉ images w).
        - apply triple_tick.
          + auto.
          + intros w n H _. exact H.
          + intros w (H & _) _. exact (proj1 H).
        - intros []. instantiate (1 := fun _ w => path_free f w /\ f ∈ images w).
          destruct (writable E f).
          + apply triple_modify. intros w (H & _). split.
            * now apply path_free_written in H.
            * simpl. set_solver.
          + apply triple_raise. intros w (H & _). exact (proj1 H).
          + eapply triple_bind with (R := fun _ w => paths_unique w).
            * apply triple_modify. intros w (H & _).
              now apply path_free_written in H as [H _].
            * intros []. apply triple_raise. auto. }
      intros []. eapply triple_bind with (R := fun _ => paths_unique);
        [ | intros []; apply triple_ret; auto ].
      (* with self.lock *)
      eapply triple_bind
        with (R := fun _ w => path_free f w /\ f ∈ images w).
      { eapply triple_bind
          with (R := fun _ w => path_free f w /\ f ∈ images w).
        - apply triple_tick.
          + auto.
          + intros w n H _. exact H.
          + intros w (H & _) _. exact (proj1 H).
        - intros []. apply triple_modify. auto. }
      intros []. apply triple_finally.
      eapply triple_bind
        with (R := fun _ w => path_free f w /\ f ∈ images w).
      { eapply triple_bind
          with (R := fun _ w => path_free f w /\ f ∈ images w).
        - apply triple_tick.
          + auto.
          + intros w n H _. exact H.
          + intros w (H & _) _. exact (proj1 H).
        - intros []. apply triple_modify. auto. }
      intros []. apply triple_modify. intros w (H & Hf).
      now apply (path_free_recorded _ f w).
    + apply safe_bind; [ | intros []; apply safe_ret ].
      apply safe_bind; [ apply safe_step; apply _ | intros [] ].
      apply safe_modify. intros w. apply paths_unique_failed.
  - apply safe_bind; [ apply safe_log; apply _ | intros [] ].
    apply safe_bind; [ | intros []; apply safe_ret ].
    apply safe_with_lock; [ apply _ | ].
    apply safe_bind; [ apply safe_step; apply _ | intros [] ].
    apply safe_modify. intros w. apply paths_unique_failed.
Qed.

Lemma save_metadata_unique : safe paths_unique (fun _ => paths_unique)
                                  save_metadata.
Proof.
  intros w Hw. pose proof (save_metadata_spec w) as H.
  destruct (save_metadata w) as [[[]|e] w'].
  - destruct H as (_ & (Hd & _) & Hi). now apply (paths_unique_ext w).
  - destruct H as (_ & _ & _ & (Hd & _) & Hi). now apply (paths_unique_ext w).
Qed.

(** In a run that downloads one card after the other (no
    [--parallel]) every downloaded card has a [local_path] of its own. *)
Lemma run_paths_unique workers skip_count images_ json classes summary fuse_ :
  NoDup (List.map local_path
           (downloaded_cards
              (main E false workers skip_count
                 (new_scraper images_ json classes summary fuse_)).2)).
Proof.
  set (w := new_scraper images_ json classes summary fuse_).
  assert (paths_unique w) as Hw by (split; constructor).
  pose proof (safe_scrape_all_cards E paths_unique (fun _ => paths_unique)
                (fun _ _ H => H) download_image_unique save_metadata_unique
                false workers skip_count w Hw) as Hs.
  unfold main.
  destruct (scrape_all_cards E false workers skip_count w) as [[[]|e] w'];
    simpl.
  - apply Hs.
  - assert (forall m, paths_unique ((log m >> save_metadata) w').2) as Hh.
    { intros m. unfold bind, log, modify.
      pose proof (save_metadata_unique (add_event (Log m) w') Hs) as H.
      now destruct (save_metadata (add_event (Log m) w')) as [[[]|e'] w'']. }
    destruct e; apply Hh.
Qed.

End Unique.

(** Three cards with one file name, one after the other: the second
    gets the suffix [_1], the third [_2]. *)
Lemma same_name_suffixes :
  forall U : Unicode,
    List.map filename
      (downloaded_cards
         (@download_batch U up false 5 [pikachu; pikachu; pikachu] fresh).2)
    = [ Some (u "Pikachu_BS_58.jpg"); Some (u "Pikachu_BS_58_1.jpg");
        Some (u "Pikachu_BS_58_2.jpg") ].
Proof. intros U0. vm_compute. reflexivity. Qed.

End UniqueFacts.

(** ** Two runs *)

Module Scenario.
Import PyStr Dom Runtime Scraper Expect.
Local Open Scope py_scope.

(** The scenario of two sets with three cards each: the count is 6,
    six cards are downloaded and none fails, the class file lists the
    five names and the summary the two sets. *)
Lemma two_sets_run :
  forall U : Unicode,
    let run := @main U two_sets false 5 false fresh in
    run.1 = Returned tt
    /\ total_cards_expected run.2 = 6
    /\ List.map filename (downloaded_cards run.2)
       = [ Some (u "Pikachu_BS_58.jpg"); Some (u "Charizard_BS_4.jpg");
           Some (u "Mewtwo_BS_10.jpg"); Some (u "Eevee_JU_51.jpg");
           Some (u "Pikachu_JU_60.jpg"); Some (u "Snorlax_JU_11.jpg") ]
    /\ failed_downloads run.2 = []
    /\ pokemon_classes_txt run.2
       = Some [ u "0: Charizard" ++ [10%N]; u "1: Eevee" ++ [10%N];
                u "2: Mewtwo" ++ [10%N]; u "3: Pikachu" ++ [10%N];
                u "4: Snorlax" ++ [10%N] ]
    /\ (drop 6 <$> download_summary_txt run.2)
       = Some [ u "  Base Set (BS): 3 cards" ++ [10%N];
                u "  Jungle (JU): 3 cards" ++ [10%N] ].
Proof. intros U0. vm_compute. repeat split. Qed.

(** The same run with Ctrl-C during the second set: the metadata on
    disk holds what was downloaded until then. *)
Lemma two_sets_interrupted :
  forall U : Unicode,
    let run := @main U two_sets false 5 false
                 (new_scraper ∅ None None None (Some 30)) in
    run.1 = Returned tt
    /\ last (events run.2) = Some (WriteMetadata (u "download_summary.txt"))
    /\ List.map filename (downloaded_cards run.2)
       = [ Some (u "Pikachu_BS_58.jpg"); Some (u "Charizard_BS_4.jpg");
           Some (u "Mewtwo_BS_10.jpg"); Some (u "Eevee_JU_51.jpg") ]
    /\ (cards <$> cards_metadata_json run.2) = Some (downloaded_cards run.2)
    /\ (Log InterruptedByUser ∈ events run.2).
Proof.
  intros U0. vm_compute. repeat split.
  repeat first [ apply list_elem_of_here | apply list_elem_of_further ].
Qed.

End Scenario.

(* ===================================================================== *)
(** * Further properties of the methods *)
(* ===================================================================== *)

(** ** get_page_content for any number of retries *)

Module RetryFacts.
Import PyStr Dom Runtime Scraper Hoare Expect.
Import FetchFacts.
Local Open Scope py_scope.

Lemma slept_app evs evs' : slept (evs ++ evs') = slept evs + slept evs'.
Proof.
  induction evs as [|ev evs IH]; simpl; [ reflexivity | ].
  destruct ev as [| [n| |] | | | | | | |]; simpl; lia.
Qed.

Lemma slept_failed_attempts url k : forall from,
  slept (failed_attempts_log url from k) + 2 ^ from = 2 ^ (from + k).
Proof.
  induction k as [|k IH]; intros from; simpl.
  - now rewrite Nat.add_0_r.
  - specialize (IH (S from)). rewrite Nat.pow_succ_r' in IH.
    replace (from + S k) with (S from + k) by lia. lia.
Qed.

Section Retry.
Context (E : env).

(** [n] attempts that fail and are not the last: the loop sleeps after
    each of them and goes on. *)
Lemma loop_skips url retries rest n : forall from m evs w,
  fuse w = None ->
  from + n < retries ->
  (forall i, i < n -> net E (requests w + (m + i)) url = RequestFailed) ->
  get_page_loop E url retries (seq from n ++ rest) (advance m evs w) =
    get_page_loop E url retries rest
      (advance (m + n) (evs ++ failed_attempts_log url from n) w).
Proof.
  induction n as [|n IH]; intros from m evs w Hf Hlt Hnet.
  - simpl. now rewrite Nat.add_0_r, app_nil_r.
  - cbn [seq app get_page_loop failed_attempts_log].
    unfold bind at 1, get_page_attempt, try_except, bind at 1.
    rewrite session_get_advance by exact Hf.
    specialize (Hnet 0 ltac:(lia)) as H0. rewrite Nat.add_0_r in H0.
    rewrite H0. simpl.
    unfold bind at 1, log, modify. rewrite add_event_advance.
    assert ((from <? retries - 1) = true) as -> by (apply Nat.ltb_lt; lia).
    unfold bind at 1, sleep. rewrite step_advance by exact Hf.
    unfold ret. rewrite IH; [ | exact Hf | lia | ].
    + f_equal. f_equal; [ lia | ]. now rewrite <- !app_assoc.
    + intros i Hi. specialize (Hnet (S i) ltac:(lia)).
      now replace (S m + i) with (m + S i) by lia.
Qed.

(** X1.  When all [retries] attempts of [get_page_content] fail with
    a [RequestException] (and Ctrl-C is not pressed), the call returns
    [None] after exactly [retries] requests.  It has slept 1, 2, 4, ...
    seconds after every failure but the last, [2 ^ (retries - 1) - 1]
    seconds in all, and the give-up message is logged once, at the end.
    With [retries = 0] it returns [None] at once: no request is sent and
    nothing is logged. *)
Theorem every_attempt_fails url retries w :
  fuse w = None ->
  (forall i, i < retries -> net E (requests w + i) url = RequestFailed) ->
  get_page_content_retries E url retries w =
    (Returned None, advance retries (gave_up_log url retries) w)
  /\ slept (gave_up_log url retries) = 2 ^ (retries - 1) - 1
  /\ (retries = 0 -> get_page_content_retries E url retries w = (Returned None, w)).
Proof.
  intros Hf Hnet. split; [ | split ].
  - unfold get_page_content_retries. destruct retries as [|k].
    + simpl. now rewrite advance_0.
    + rewrite <- (advance_0 w) at 1. rewrite seq_S.
      rewrite loop_skips; [ | exact Hf | lia | intros i Hi; apply Hnet; lia ].
      simpl. unfold bind at 1, get_page_attempt, try_except, bind at 1.
      rewrite session_get_advance by exact Hf.
      rewrite (Hnet k) by lia. simpl.
      assert ((k <? k - 0) = false) as -> by (apply Nat.ltb_ge; lia).
      unfold bind, log, modify, ret. rewrite !add_event_advance.
      rewrite <- !app_assoc. simpl. now rewrite Nat.add_1_r.
  - destruct retries as [|k]; [ reflexivity | ].
    unfold gave_up_log. rewrite slept_app. simpl.
    pose proof (slept_failed_attempts url k 0) as H. simpl in H.
    rewrite Nat.sub_0_r. lia.
  - intros ->. reflexivity.
Qed.

(** X2.  When the first [k] attempts fail and attempt [k] (counted from
    0, [k < retries]) is answered, [get_page_content] returns that
    response after exactly [k + 1] requests, having slept [2 ^ i] seconds
    after failure [i]: [2 ^ k - 1] seconds in all.  No give-up message
    is logged. *)
Theorem first_answer_is_returned url retries k r w :
  fuse w = None ->
  k < retries ->
  (forall i, i < k -> net E (requests w + i) url = RequestFailed) ->
  net E (requests w + k) url = Respond r ->
  get_page_content_retries E url retries w =
    (Returned (Some r),
     advance (S k) (failed_attempts_log url 0 k ++ [Get url]) w)
  /\ slept (failed_attempts_log url 0 k ++ [Get url]) = 2 ^ k - 1.
Proof.
  intros Hf Hk Hnet Hr. split.
  - unfold get_page_content_retries.
    replace retries with (k + S (retries - S k)) at 2 by lia.
    rewrite seq_app. cbn [seq].
    rewrite <- (advance_0 w) at 1.
    rewrite loop_skips; [ | exact Hf | lia | intros i Hi; apply Hnet; lia ].
    cbn [get_page_loop]. unfold bind at 1, get_page_attempt, try_except, bind at 1.
    rewrite session_get_advance by exact Hf. simpl. rewrite Hr. reflexivity.
  - rewrite slept_app. simpl.
    pose proof (slept_failed_attempts url k 0) as H. simpl in H. lia.
Qed.

(** X3.  An exception of [session.get] that is not a
    [RequestException] is not retried: when the first [k] attempts fail
    and attempt [k] raises such an exception, it leaves
    [get_page_content] at once, after [k + 1] requests, with no log
    line for that attempt and no further sleep. *)
Theorem other_exception_is_not_retried url retries k w :
  fuse w = None ->
  k < retries ->
  (forall i, i < k -> net E (requests w + i) url = RequestFailed) ->
  net E (requests w + k) url = Crashed ->
  get_page_content_retries E url retries w =
    (Raised OtherException,
     advance (S k) (failed_attempts_log url 0 k ++ [Get url]) w).
Proof.
  intros Hf Hk Hnet Hr.
  unfold get_page_content_retries.
  replace retries with (k + S (retries - S k)) at 2 by lia.
  rewrite seq_app. cbn [seq].
  rewrite <- (advance_0 w) at 1.
  rewrite loop_skips; [ | exact Hf | lia | intros i Hi; apply Hnet; lia ].
  cbn [get_page_loop]. unfold bind at 1, get_page_attempt, try_except, bind at 1.
  rewrite session_get_advance by exact Hf. simpl. rewrite Hr. reflexivity.
Qed.

End Retry.

Lemma every_attempt_fails_witness :
  get_page_content_retries down base_url 5 fresh =
    (Returned None, advance 5 (gave_up_log base_url 5) fresh)
  /\ slept (gave_up_log base_url 5) = 15.
Proof.
  destruct (every_attempt_fails down base_url 5 fresh) as (H1 & H2 & _);
    [ reflexivity | reflexivity | ].
  split; [ exact H1 | exact H2 ].
Defined.

Lemma first_answer_is_returned_witness :
  get_page_content_retries flaky base_url 4 fresh =
    (Returned (Some empty_page),
     advance 3 (failed_attempts_log base_url 0 2 ++ [Get base_url]) fresh).
Proof.
  refine (proj1 (first_answer_is_returned flaky base_url 4 2 empty_page fresh
                   eq_refl _ _ eq_refl)).
  - lia.
  - intros [|[|i]] Hi; [ reflexivity | reflexivity | lia ].
Defined.

Lemma other_exception_is_not_retried_witness :
  get_page_content_retries crashing base_url 3 fresh =
    (Raised OtherException,
     advance 2 (failed_attempts_log base_url 0 1 ++ [Get base_url]) fresh).
Proof.
  apply (other_exception_is_not_retried crashing base_url 3 1 fresh eq_refl).
  - lia.
  - intros [|i] Hi; [ reflexivity | lia ].
  - reflexivity.
Defined.

End RetryFacts.

Module ContainFacts.
Import PyStr Dom Runtime Scraper Hoare Expect.
Import FetchFacts.
Local Open Scope py_scope.

Section Contain.
Context (E : env).

(** What a call of [session_get] leaves behind. *)
Lemma session_get_outcome url w :
  match session_get E url w with
  | (Returned r, w') =>
      exists n, requests w' = S n /\ net E n url = Respond r
  | (Raised _, _) => True
  end.
Proof.
  unfold session_get, bind. pose proof (tick_requests w) as Ht.
  destruct (tick w) as [[[]|x] w1]; [ | exact I ].
  destruct (net E (requests w1) url) eqn:Hn; try exact I.
  exists (requests w1). now split.
Qed.

Lemma step_events e w :
  match step e w with
  | (Returned _, w') => last (events w') = Some e
  | (Raised x, _) => x = KeyboardInterrupt
  end.
Proof.
  unfold step, bind, tick, modify.
  destruct (fuse w) as [[|n]|]; simpl; try reflexivity; apply last_snoc.
Qed.

Lemma attempt_outcome url retries attempt w :
  match get_page_attempt E url retries attempt w with
  | (Returned (Some (Some r)), w') =>
      exists n, requests w' = S n /\ net E n url = Respond r
  | (Returned (Some None), w') =>
      ~ attempt < retries - 1
      /\ last (events w') = Some (Log (FailedToGet url retries))
  | (Returned None, _) => attempt < retries - 1
  | (Raised e, _) => e <> RequestException
  end.
Proof.
  unfold get_page_attempt, try_except, bind at 1.
  pose proof (session_get_outcome url w) as Hs.
  destruct (session_get E url w) as [[r|e] w1]; [ exact Hs | ].
  destruct e; try discriminate.
  unfold bind at 1, log, modify.
  destruct (Nat.ltb_spec attempt (retries - 1)) as [Hlt|Hge].
  - unfold bind, sleep.
    match goal with |- context [step ?e ?w] =>
      pose proof (step_events e w) as Hp; destruct (step e w) as [[[]|x] w2]
    end; simpl; [ exact Hlt | now subst x ].
  - simpl. split; [ lia | apply last_snoc ].
Qed.

Lemma loop_outcome url retries n : forall from w,
  from + n = retries ->
  match get_page_loop E url retries (seq from n) w with
  | (Returned (Some r), w') =>
      exists k, requests w' = S k /\ net E k url = Respond r
  | (Returned None, w') =>
      (n = 0 /\ w' = w)
      \/ last (events w') = Some (Log (FailedToGet url retries))
  | (Raised e, _) => e <> RequestException
  end.
Proof.
  induction n as [|n IH]; intros from w Hsum; cbn [seq get_page_loop].
  - now left.
  - unfold bind. pose proof (attempt_outcome url retries from w) as Ha.
    destruct (get_page_attempt E url retries from w) as [[[[r|]|]|e] w1];
      simpl; try exact Ha.
    + right. apply Ha.
    + specialize (IH (S from) w1 ltac:(lia)).
      destruct (get_page_loop E url retries (seq (S from) n) w1)
        as [[[r|]|e] w2]; try exact IH.
      destruct IH as [[-> _]|IH]; [ lia | now right ].
Qed.

(** X4.  Whatever the server and the moment of Ctrl-C: a call of
    [get_page_content] sends at most [retries] requests and never lets a
    [RequestException] reach its caller.  A response it returns is the
    reply to the last request it sent; [None] is returned with the
    give-up message as the last log line, or without any effect when
    [retries] is 0. *)
Theorem request_exception_is_contained url retries w :
  requests (get_page_content_retries E url retries w).2 <= requests w + retries
  /\ match get_page_content_retries E url retries w with
     | (Returned (Some r), w') =>
         exists k, requests w' = S k /\ net E k url = Respond r
     | (Returned None, w') =>
         (retries = 0 /\ w' = w)
         \/ last (events w') = Some (Log (FailedToGet url retries))
     | (Raised e, _) => e <> RequestException
     end.
Proof.
  split.
  - unfold get_page_content_retries.
    pose proof (loop_requests E url retries (seq 0 retries) w) as H.
    now rewrite length_seq in H.
  - apply (loop_outcome url retries retries 0 w). reflexivity.
Qed.

End Contain.
End ContainFacts.

(** ** What the methods do not touch *)

Module FrameFacts.
Import PyStr Dom Runtime Scraper Hoare Expect.
Local Open Scope py_scope.

Section Writes.
Context {U : Unicode} (E : env).
Variable I : world -> Prop.
Hypothesis HW : kept_by_writes I.

Lemma keeps_ret {A} (a : A) : keeps I (ret a).
Proof. now apply triple_ret. Qed.

Lemma keeps_bind {A B} (m : M A) (k : A -> M B) :
  keeps I m -> (forall a, keeps I (k a)) -> keeps I (bind m k).
Proof. intros Hm Hk. eapply triple_bind; [ exact Hm | exact Hk ]. Qed.

Lemma keeps_try_except {A} (m : M A) catch handler :
  keeps I m -> keeps I handler -> keeps I (try_except m catch handler).
Proof.
  intros Hm Hh. apply triple_try_except with (R := I); [ | exact Hh ].
  eapply triple_exn; [ exact Hm | ]. intros e w Hw. now destruct (catch e).
Qed.

Lemma keeps_tick : keeps I tick.
Proof. apply triple_tick; auto; intros; now apply HW. Qed.

Lemma keeps_log m : keeps I (log m).
Proof. apply triple_modify. intros w. apply HW. Qed.

Lemma keeps_step ev : keeps I (step ev).
Proof.
  apply keeps_bind; [ apply keeps_tick | intros [] ].
  apply triple_modify. intros w. apply HW.
Qed.

Lemma keeps_with_lock {A} (m : M A) : keeps I m -> keeps I (with_lock m).
Proof.
  intros Hm. apply keeps_bind; [ apply keeps_step | intros [] ].
  apply triple_finally. eapply triple_conseq; [ exact Hm | auto | | ];
    intros ? w; apply HW.
Qed.

Lemma keeps_append_failed c : keeps I (append_failed c).
Proof.
  apply keeps_bind; [ apply keeps_step | intros [] ].
  apply triple_modify. intros w. apply HW.
Qed.

Lemma keeps_append_downloaded c : keeps I (append_downloaded c).
Proof.
  apply keeps_bind; [ apply keeps_step | intros [] ].
  apply triple_modify. intros w. apply HW.
Qed.

Lemma keeps_write_image f : keeps I (write_image E f).
Proof.
  apply keeps_bind; [ apply keeps_tick | intros [] ].
  destruct (writable E f).
  - apply triple_modify. intros w Hw. now apply HW, HW.
  - now apply triple_raise.
  - apply keeps_bind; [ | intros []; now apply triple_raise ].
    apply triple_modify. intros w. apply HW.
Qed.

Lemma keeps_save_metadata : keeps I save_metadata.
Proof.
  unfold save_metadata.
  apply keeps_bind; [ now apply triple_gets | intros downloaded ].
  apply keeps_bind; [ now apply triple_gets | intros failed_ ].
  repeat (apply keeps_bind;
          [ first [ apply keeps_tick
                  | apply triple_modify; intros w; apply HW ]
          | intros [] ]).
  apply triple_modify. intros w. apply HW.
Qed.

Lemma keeps_for_each {A} (body : A -> M unit) l :
  (forall a, keeps I (body a)) -> keeps I (for_each body l).
Proof. intros Hb. apply triple_for_each. intros a _. apply Hb. Qed.

(** What comes after the fetch in [download_image], and its handler. *)
Lemma keeps_record_download c :
  keeps I
    (let filename := image_filename c in
     let* filepath := gets (fun w => unique_path (images w) filename) in
     write_image E filepath >>
     with_lock (append_downloaded (with_local_path c filepath)) >>
     ret true).
Proof.
  cbv zeta.
  apply keeps_bind; [ now apply triple_gets | intros f ].
  apply keeps_bind; [ apply keeps_write_image | intros [] ].
  apply keeps_bind; [ | intros []; apply keeps_ret ].
  apply keeps_with_lock, keeps_append_downloaded.
Qed.

Lemma keeps_record_failure c :
  keeps I
    (log (ErrorDownloading (card_title c)) >>
     with_lock (append_failed c) >> ret false).
Proof.
  apply keeps_bind; [ apply keeps_log | intros [] ].
  apply keeps_bind; [ | intros []; apply keeps_ret ].
  apply keeps_with_lock, keeps_append_failed.
Qed.

End Writes.

Section Fetches.
Context {U : Unicode} (E : env).
Variable I : world -> Prop.
Hypothesis HW : kept_by_writes I.
Hypothesis HR : kept_by_requests I.

Lemma keeps_session_get url : keeps I (session_get E url).
Proof.
  apply keeps_bind; [ now apply keeps_tick | intros [] ].
  intros w Hw.
  assert (I (add_event (Get url) (count_request w))) as Hw'
    by now apply HW, HR.
  now destruct (net E (requests w) url).
Qed.

Lemma keeps_get_page_loop url retries range :
  keeps I (get_page_loop E url retries range).
Proof.
  induction range as [|a range IH]; cbn [get_page_loop].
  - now apply keeps_ret.
  - apply keeps_bind; [ | intros [v|]; [ now apply keeps_ret | exact IH ] ].
    apply keeps_try_except.
    + apply keeps_bind; [ apply keeps_session_get | intros r ].
      now apply keeps_ret.
    + apply keeps_bind; [ now apply keeps_log | intros [] ].
      destruct (a <? retries - 1).
      * apply keeps_bind; [ now apply keeps_step | intros [] ].
        now apply keeps_ret.
      * apply keeps_bind; [ now apply keeps_log | intros [] ].
        now apply keeps_ret.
Qed.

Lemma keeps_get_page_content url : keeps I (get_page_content E url).
Proof. apply keeps_get_page_loop. Qed.

Lemma keeps_get_card_images_from_set set_url si :
  keeps I (get_card_images_from_set E set_url si).
Proof.
  apply keeps_bind; [ apply keeps_get_page_content | ].
  intros [r|]; now apply keeps_ret.
Qed.

Lemma keeps_download_image c : keeps I (download_image E c).
Proof.
  apply keeps_try_except.
  - apply keeps_bind; [ apply keeps_get_page_content | intros [r|] ].
    + now apply keeps_record_download.
    + apply keeps_bind; [ now apply keeps_append_failed | intros [] ].
      now apply keeps_ret.
  - now apply keeps_record_failure.
Qed.

Lemma keeps_collect_future c : keeps I (collect_future E c).
Proof.
  intros w Hw.
  destruct (Orchestration.collect_future_returns E c w) as (b & w' & Hd & ->).
  apply HW.
  pose proof (keeps_download_image c (set_fuse None w)) as H.
  rewrite Hd in H. apply H. now apply HW.
Qed.

Lemma keeps_download_batch parallel max_workers cards :
  keeps I (download_batch E parallel max_workers cards).
Proof.
  unfold download_batch. destruct (_ && _).
  - apply keeps_bind; [ | intros []; now apply keeps_step ].
    apply keeps_for_each, keeps_collect_future.
  - apply keeps_for_each. intros c.
    apply keeps_bind; [ apply keeps_download_image | ].
    intros _. now apply keeps_step.
Qed.

Lemma keeps_process_set parallel max_workers entry :
  keeps I (process_set E parallel max_workers entry).
Proof.
  destruct entry as [si expected_count]. unfold process_set.
  apply keeps_bind; [ apply keeps_get_card_images_from_set | ].
  intros [|c cards]; [ now apply keeps_log | ].
  apply keeps_bind; [ apply keeps_download_batch | intros [] ].
  apply keeps_bind; [ now apply keeps_save_metadata | intros [] ].
  now apply keeps_step.
Qed.

End Fetches.
End FrameFacts.

(** ** The cost of the pre-count *)

Module CostFacts.
Import PyStr Dom Runtime Scraper Hoare Stable Expect.
Import FetchFacts ScanFacts DownloadFacts FrameFacts.
Local Open Scope py_scope.

Section Cost.
Context {U : Unicode} (E : env).

Lemma get_page_content_requests url w :
  requests (get_page_content E url w).2 <= requests w + 3.
Proof. apply (loop_requests E url 3 (seq 0 3) w). Qed.

Lemma extract_set_links_requests w :
  requests (extract_set_links E w).2 <= requests w + 3.
Proof.
  unfold extract_set_links, bind.
  pose proof (get_page_content_requests base_url w) as H.
  now destruct (get_page_content E base_url w) as [[[r|]|e] w1].
Qed.

Lemma count_cards_in_set_requests set_url si w :
  requests (count_cards_in_set E set_url si w).2 <= requests w + 3.
Proof.
  unfold count_cards_in_set, bind.
  pose proof (get_page_content_requests set_url w) as H.
  now destruct (get_page_content E set_url w) as [[[r|]|e] w1].
Qed.

Lemma count_one_requests acc si w :
  requests (count_one E acc si w).2 <= requests w + 3.
Proof.
  destruct acc as [total_count set_counts].
  unfold count_one, try_except, bind.
  pose proof (count_cards_in_set_requests (url si) si w) as H.
  destruct (count_cards_in_set E (url si) si w) as [[count|e] w1]; simpl in H.
  - unfold sleep. pose proof (step_requests (Sleep Tenth) w1) as Hs.
    destruct (step (Sleep Tenth) w1) as [[[]|e] w2]; simpl in *; [ lia | ].
    destruct e; simpl; lia.
  - destruct e; simpl; exact H.
Qed.

Lemma count_loop_requests set_links : forall acc w,
  requests (count_loop E acc set_links w).2
  <= requests w + 3 * length set_links.
Proof.
  induction set_links as [|si rest IH]; intros acc w; cbn [count_loop].
  - simpl. lia.
  - unfold bind. pose proof (count_one_requests acc si w) as H1.
    destruct (count_one E acc si w) as [[acc'|e] w1]; simpl in *; [ | lia ].
    specialize (IH acc' w1). lia.
Qed.

(** X5.  [count_total_cards] only reads: it leaves both accumulators,
    the images directory and the three metadata files as they were,
    however it ends.  It costs at most three requests for the catalog
    and three more for every set the catalog lists; when the catalog
    yields no set it returns [(0, [])] without a further request, and an
    exception that leaves [extract_set_links] leaves it too. *)
Theorem count_total_cards_cost w :
  same_store w (count_total_cards E w).2
  /\ match extract_set_links E w with
     | (Returned set_links, w0) =>
         requests w0 <= requests w + 3
         /\ requests (count_total_cards E w).2
            <= requests w0 + 3 * length set_links
         /\ (set_links = [] ->
             count_total_cards E w
             = (Returned (0, []), add_event (Log NoSetLinksFound) w0))
     | (Raised e, w0) => count_total_cards E w = (Raised e, w0)
     end.
Proof.
  split.
  - pose proof (safe_count_total_cards E (same_store w) _ w) as H.
    destruct (count_total_cards E w) as [[a|e] w']; apply H; now repeat split.
  - pose proof (extract_set_links_requests w) as H0.
    unfold count_total_cards, bind.
    destruct (extract_set_links E w) as [[set_links|e] w0]; [ | reflexivity ].
    split; [ exact H0 | ]. split.
    + destruct set_links as [|si rest]; [ simpl; lia | ].
      apply count_loop_requests.
    + now intros ->.
Qed.

(** *** The download phase *)

Lemma requests_kept_by_writes Q : kept_by_writes (requests_are Q).
Proof. repeat split; intros; assumption. Qed.

Lemma get_page_content_at_most url w :
  triple (fun w' => w' = w) (get_page_content E url)
    (fun _ => requests_are (fun r => r <= requests w + 3))
    (fun _ => requests_are (fun r => r <= requests w + 3)).
Proof.
  intros w' ->. pose proof (get_page_content_requests url w) as H.
  now destruct (get_page_content E url w) as [[r|e] w1].
Qed.

Lemma download_image_requests c w :
  requests (download_image E c w).2 <= requests w + 3.
Proof.
  set (Q := fun r => r <= requests w + 3).
  pose proof (requests_kept_by_writes Q) as HQ.
  enough (triple (fun w' => w' = w) (download_image E c)
            (fun _ => requests_are Q) (fun _ => requests_are Q)) as H.
  { specialize (H w eq_refl).
    now destruct (download_image E c w) as [[b|e] w1]. }
  apply triple_try_except with (R := requests_are Q).
  - eapply triple_exn with (X' := fun _ => requests_are Q);
      [ | intros e w' H; now destruct (is_Exception e) ].
    eapply triple_bind; [ apply get_page_content_at_most | ].
    intros [r|].
    + now apply keeps_record_download.
    + eapply triple_bind with (R := fun _ => requests_are Q);
        [ now apply keeps_append_failed | intros []; now apply triple_ret ].
  - now apply keeps_record_failure.
Qed.

Lemma sleep_requests d w : requests (sleep d w).2 = requests w.
Proof. apply step_requests. Qed.

Lemma save_metadata_requests w : requests (save_metadata w).2 = requests w.
Proof.
  pose proof (keeps_save_metadata _
                (requests_kept_by_writes (fun r => r = requests w)) w eq_refl)
    as H.
  now destruct (save_metadata w) as [[[]|e] w1].
Qed.

Lemma for_each_requests {A} (body : A -> M unit) k l :
  (forall a w, requests (body a w).2 <= requests w + k) ->
  forall w, requests (for_each body l w).2 <= requests w + k * length l.
Proof.
  intros Hb. induction l as [|a l IH]; intros w; cbn [for_each].
  - simpl. lia.
  - unfold bind. pose proof (Hb a w) as Ha.
    destruct (body a w) as [[[]|e] w1]; simpl in *; [ | lia ].
    specialize (IH w1). lia.
Qed.

Lemma collect_future_requests c w :
  requests (collect_future E c w).2 <= requests w + 3.
Proof.
  destruct (Orchestration.collect_future_returns E c w) as (b & w' & Hd & ->).
  pose proof (download_image_requests c (set_fuse None w)) as H.
  now rewrite Hd in H.
Qed.

Lemma download_batch_requests parallel max_workers cards w :
  requests (download_batch E parallel max_workers cards w).2
  <= requests w + 3 * length cards.
Proof.
  unfold download_batch. destruct (_ && _).
  - unfold download_cards_parallel, bind.
    pose proof (for_each_requests (collect_future E) 3 cards
                  collect_future_requests w) as H.
    destruct (for_each (collect_future E) cards w) as [[[]|e] w1];
      simpl in *; [ | exact H ].
    now rewrite sleep_requests.
  - apply for_each_requests. intros c w0. unfold bind.
    pose proof (download_image_requests c w0) as H.
    destruct (download_image E c w0) as [[b|e] w1]; simpl in *; [ | exact H ].
    now rewrite sleep_requests.
Qed.

Lemma get_card_images_from_set_requests set_url si w :
  requests (get_card_images_from_set E set_url si w).2 <= requests w + 3.
Proof.
  unfold get_card_images_from_set, bind.
  pose proof (get_page_content_requests set_url w) as H.
  now destruct (get_page_content E set_url w) as [[[r|]|e] w1].
Qed.

(** X6.  The download phase asks for every page and every image at
    most three times and never comes back to a card that failed: a call
    of [download_image] costs at most 3 requests, a batch at most 3 per
    card, and the turn of a set at most 3 for its page and 3 for every
    card the scanner found on it.  Writing the metadata and sleeping
    send nothing. *)
Theorem download_phase_cost parallel max_workers si expected_count w :
  (forall c, requests (download_image E c w).2 <= requests w + 3)
  /\ (forall cards,
        requests (download_batch E parallel max_workers cards w).2
        <= requests w + 3 * length cards)
  /\ requests (save_metadata w).2 = requests w
  /\ match get_card_images_from_set E (url si) si w with
     | (Returned cards, _) =>
         requests (process_set E parallel max_workers (si, expected_count) w).2
         <= requests w + 3 + 3 * length cards
     | (Raised _, _) =>
         requests (process_set E parallel max_workers (si, expected_count) w).2
         <= requests w + 3
     end.
Proof.
  split; [ intros c; apply download_image_requests | ].
  split; [ intros cards; apply download_batch_requests | ].
  split; [ apply save_metadata_requests | ].
  pose proof (get_card_images_from_set_requests (url si) si w) as Hscan.
  unfold process_set, bind.
  destruct (get_card_images_from_set E (url si) si w) as [[cards|e] w1];
    simpl in Hscan; [ | exact Hscan ].
  destruct cards as [|c cards]; [ simpl; lia | ].
  pose proof (download_batch_requests parallel max_workers (c :: cards) w1) as Hb.
  destruct (download_batch E parallel max_workers (c :: cards) w1)
    as [[[]|e] w2]; simpl in Hb |- *; [ | lia ].
  pose proof (save_metadata_requests w2) as Hsave.
  destruct (save_metadata w2) as [[[]|e] w3]; simpl in Hsave |- *; [ | lia ].
  rewrite sleep_requests. lia.
Qed.

End Cost.
End CostFacts.

(** ** The files download_image writes *)

Module FileFacts.
Import PyStr Dom Runtime Scraper Hoare Stable Expect.
Import FilenameFacts ScanFacts.
Local Open Scope py_scope.

Section Files.
Context {U : Unicode} (E : env).



Lemma same_store_blind w : blind (same_store w).
Proof. split; [ | split ]; intros; assumption. Qed.







End Files.
End FileFacts.

(** ** File names *)

Module NameFacts.
Import PyStr Dom Runtime Scraper Hoare Stable Expect.
Import StripFacts TitleFacts FilenameFacts.
Local Open Scope N_scope.


Section Names.
Context {U : Unicode}.





Lemma word_is_plain ch : isword ch = true -> plain_char ch.
Proof.
  intros H. unfold plain_char, keep_name_char. rewrite H.
  repeat split; try reflexivity; intros ->; discriminate.
Qed.

Lemma code_char_is_plain ch : keep_code_char ch = true -> plain_char ch.
Proof.
  unfold keep_code_char. rewrite orb_true_iff. intros [H|H].
  - now apply word_is_plain.
  - apply N.eqb_eq in H as ->. unfold plain_char, keep_name_char.
    rewrite orb_true_r. repeat split; discriminate.
Qed.

Lemma replaced_is_plain ch :
  keep_name_char ch = true -> plain_char (if ch =? 32 then 95 else ch).
Proof.
  intros H. destruct (N.eqb_spec ch 32) as [->|Hne].
  - now apply word_is_plain.
  - unfold plain_char. rewrite H.
    repeat split; try assumption; intros ->; discriminate.
Qed.

Lemma filter_Forall_id {A} (p : A -> bool) l :
  Forall (fun x => p x = true) l -> List.filter p l = l.
Proof.
  induction 1 as [|x l Hx _ IH]; simpl; [ reflexivity | ].
  now rewrite Hx, IH.
Qed.

Lemma Forall_filter_true {A} (p : A -> bool) l :
  Forall (fun x => p x = true) (List.filter p l).
Proof.
  apply List.Forall_forall. intros x Hx.
  now apply List.filter_In in Hx as [_ Hx].
Qed.

Lemma parsed_name_kept title :
  Forall (fun ch => keep_name_char ch = true) (parse_card_title title).1.
Proof.
  unfold parse_card_title. simpl. apply strip_Forall, Forall_filter_true.
Qed.

Lemma parsed_number_words title :
  Forall (fun ch => isword ch = true) (parse_card_title title).2.
Proof.
  unfold parse_card_title. simpl.
  pose proof (search_hash_word_spec title) as H.
  destruct (search_hash_word title) as [num|].
  - now destruct H as (pre & rest & _ & _ & Hw & _).
  - repeat constructor.
Qed.

(** The second [re.sub] of the name, in [download_image], finds
    nothing to delete in a name that [parse_card_title] returned. *)
Lemma parsed_name_is_clean title :
  sub_non_name (parse_card_title title).1 = (parse_card_title title).1.
Proof. apply filter_Forall_id, parsed_name_kept. Qed.

Lemma scanned_file_base si c :
  scanned si c -> Forall plain_char (file_base c).
Proof.
  intros (_ & _ & _ & _ & _ & Hp).
  assert (pokemon_name c = (parse_card_title (card_title c)).1) as Hn
    by now rewrite <- Hp.
  assert (card_number c = (parse_card_title (card_title c)).2) as Hk
    by now rewrite <- Hp.
  unfold file_base. rewrite Hn, Hk, parsed_name_is_clean.
  repeat apply Forall_app_2.
  - unfold replace. apply Forall_map.
    eapply Forall_impl; [ apply parsed_name_kept | ].
    intros ch. apply replaced_is_plain.
  - repeat constructor; try discriminate.
  - eapply Forall_impl; [ apply Forall_filter_true | ].
    intros ch. apply code_char_is_plain.
  - repeat constructor; try discriminate.
  - eapply Forall_impl; [ apply parsed_number_words | ].
    intros ch. apply word_is_plain.
Qed.

Lemma scan_article_scanned si cards article :
  Forall (scanned si) cards ->
  Forall (scanned si) (scan_article si cards article).
Proof.
  intros Hc. unfold scan_article.
  destruct (find_class _ _ article) as [card_link|]; [ | exact Hc ].
  destruct (find_class _ _ card_link) as [img_tag|]; [ | exact Hc ].
  destruct (get_default (u "src") img_tag) as [|x img_url] eqn:Hsrc;
    [ exact Hc | ].
  cbn [nonempty].
  match goal with |- context [parse_card_title ?t] =>
    destruct (parse_card_title t) as [name_ number] eqn:Hp
  end.
  apply Forall_app_2; [ exact Hc | ]. constructor; [ | constructor ].
  unfold scanned. simpl. rewrite Hp. repeat split. discriminate.
Qed.

Lemma scan_fold_scanned si articles : forall cards,
  Forall (scanned si) cards ->
  Forall (scanned si) (fold_left (scan_article si) articles cards).
Proof.
  induction articles as [|a l IH]; intros cards Hc; simpl; [ exact Hc | ].
  apply IH, scan_article_scanned, Hc.
Qed.

Section Scanned.
Context (E : env).

(** X9.  Every card [get_card_images_from_set] returns has an image
    URL that is not empty, the name and the code of the set it was asked
    for, no [local_path] and no [filename] yet, and the name and number
    [parse_card_title] finds in its title.  The file name
    [download_image] builds for such a card is made, before [.jpg], of
    characters that [\w], [\s] or ['-'] match and holds no space, no
    dot, no slash and no backslash; the name needs no second cleaning. *)
Theorem scanned_cards set_url si w :
  match get_card_images_from_set E set_url si w with
  | (Returned cards, _) =>
      Forall (fun c =>
                image_url c <> []
                /\ set_name c = name si /\ set_code c = code si
                /\ local_path c = None /\ filename c = None
                /\ (pokemon_name c, card_number c)
                   = parse_card_title (card_title c)
                /\ sub_non_name (pokemon_name c) = pokemon_name c
                /\ Forall plain_char (file_base c)) cards
  | (Raised _, _) => True
  end.
Proof.
  unfold get_card_images_from_set, bind.
  destruct (get_page_content E set_url w) as [[[r|]|e] w1]; simpl;
    [ | constructor | exact I ].
  eapply Forall_impl; [ apply scan_fold_scanned; constructor | ].
  intros c Hc. pose proof (scanned_file_base si c Hc) as Hb.
  destruct Hc as (H1 & H2 & H3 & H4 & H5 & H6).
  repeat split; try assumption.
  replace (pokemon_name c) with (parse_card_title (card_title c)).1
    by now rewrite <- H6.
  apply parsed_name_is_clean.
Qed.

End Scanned.
End Names.
End NameFacts.

(** ** Batches *)

Module BatchFacts.
Import PyStr Dom Runtime Scraper Hoare Stable Expect.
Import DownloadFacts Orchestration CountFacts.
Local Open Scope py_scope.









Section Batch.
Context {U : Unicode} (E : env).












End Batch.
End BatchFacts.

(** ** The numbers of the summary *)

Module SummaryFacts.
Import PyStr Dom Runtime Scraper Expect.
Import OrderFacts MetadataFacts.

Lemma sum_list_Permutation (l k : list nat) : l ≡ₚ k -> sum_list l = sum_list k.
Proof. induction 1; simpl; lia. Qed.

Lemma sum_list_lower (l : list nat) :
  Forall (fun n => 0 < n) l -> length l <= sum_list l.
Proof. induction 1; simpl; lia. Qed.

(** The sum of the counts of a dictionary. *)
Lemma sum_insert_fresh (sets : gmap pystr nat) n k :
  sets !! n = None ->
  sum_list (map_to_list (<[n := k]> sets)).*2
  = k + sum_list (map_to_list sets).*2.
Proof.
  intros Hn. rewrite (sum_list_Permutation _ ((n, k) :: map_to_list sets).*2).
  - reflexivity.
  - apply fmap_Permutation. now apply map_to_list_insert.
Qed.

Lemma sum_insert_present (sets : gmap pystr nat) n k0 k :
  sets !! n = Some k0 ->
  sum_list (map_to_list (<[n := k]> sets)).*2 + k0
  = k + sum_list (map_to_list sets).*2.
Proof.
  intros Hn.
  pose proof (sum_insert_fresh (delete n sets) n k (lookup_delete_eq sets n))
    as H1.
  rewrite insert_delete_eq in H1.
  pose proof (sum_list_Permutation _ _
                (fmap_Permutation snd _ _ (map_to_list_delete sets n k0 Hn)))
    as H2.
  change (sum_list ((n, k0) :: map_to_list (delete n sets)).*2)
    with (k0 + sum_list (map_to_list (delete n sets)).*2) in H2.
  lia.
Qed.

Lemma count_set_sum sets c :
  sum_list (map_to_list (count_set sets c)).*2
  = sum_list (map_to_list sets).*2 + 1.
Proof.
  unfold count_set. case_bool_decide as Hd.
  - apply elem_of_dom in Hd as [k0 Hk].
    pose proof (sum_insert_present sets (set_name c) k0 (sets !!! set_name c + 1) Hk)
      as H.
    rewrite (lookup_total_correct _ _ _ Hk) in *. lia.
  - apply not_elem_of_dom in Hd.
    rewrite lookup_total_insert_eq, insert_insert_eq.
    rewrite sum_insert_fresh by exact Hd. simpl. lia.
Qed.

Lemma sets_fold_sum downloaded : forall sets,
  sum_list (map_to_list (fold_left count_set downloaded sets)).*2
  = sum_list (map_to_list sets).*2 + length downloaded.
Proof.
  induction downloaded as [|c l IH]; intros sets; simpl; [ lia | ].
  rewrite IH, count_set_sum. lia.
Qed.

Lemma sorted_items_sum downloaded :
  sum_list (sorted_items (sets_of downloaded)).*2 = length downloaded.
Proof.
  unfold sorted_items, sets_of.
  rewrite (sum_list_Permutation _ _
             (fmap_Permutation snd _ _ (merge_sort_Permutation item_le _))).
  rewrite sets_fold_sum, map_to_list_empty. reflexivity.
Qed.

Lemma sorted_items_positive downloaded :
  Forall (fun k => 0 < k) (sorted_items (sets_of downloaded)).*2.
Proof.
  apply Forall_fmap, Forall_forall. intros [n k] Hin.
  now apply sorted_items_elem in Hin as [_ Hk].
Qed.

Lemma pokemon_names_length downloaded :
  length (pokemon_names_of downloaded) <= length downloaded.
Proof.
  rewrite <- (length_map pokemon_name downloaded : length (List.map pokemon_name downloaded) = _).
  apply submseteq_length, NoDup_submseteq; [ apply pokemon_names_NoDup | ].
  intros n Hn. apply pokemon_names_elem in Hn as (c & Hc & <-).
  apply list_elem_of_fmap. now exists c.
Qed.

(** X12.  The numbers [save_metadata] writes agree with each other:
    the per-set counts of [download_summary.txt] add up to the number
    of downloaded cards, which is the total the file and the JSON give;
    there are no more set lines and no more classes than downloaded
    cards; [pokemon_classes.txt] has one line per name counted as
    "Unique Pokemon"; the summary has six lines before the per-set
    lines.  When nothing was downloaded, the class file is written
    empty and the summary has no set line. *)
Theorem summary_adds_up downloaded failed_ :
  sum_list (sorted_items (sets_of downloaded)).*2 = length downloaded
  /\ total_cards (json_of downloaded failed_) = length downloaded
  /\ length (sorted_items (sets_of downloaded)) <= length downloaded
  /\ length (pokemon_names_of downloaded) <= length downloaded
  /\ length (classes_of downloaded) = length (pokemon_names_of downloaded)
  /\ length (summary_of downloaded failed_)
     = 6 + length (sorted_items (sets_of downloaded))
  /\ (downloaded = [] ->
      classes_of downloaded = []
      /\ sorted_items (sets_of downloaded) = []).
Proof.
  pose proof (sorted_items_sum downloaded) as Hsum.
  pose proof (sum_list_lower _ (sorted_items_positive downloaded)) as Hlow.
  rewrite length_fmap in Hlow.
  pose proof (pokemon_names_length downloaded) as Hnames.
  assert (length (classes_of downloaded) = length (pokemon_names_of downloaded))
    as Hcl by apply length_imap.
  repeat split; try assumption; try lia.
  - unfold summary_of. rewrite length_app, length_map. reflexivity.
  - subst downloaded. simpl in *. apply nil_length_inv. lia.
  - subst downloaded. simpl in *. apply nil_length_inv. lia.
Qed.

End SummaryFacts.

(** ** What a run keeps *)

Module RunFacts.
Import PyStr Dom Runtime Scraper Hoare Stable Store Expect.
Import FilenameFacts DownloadFacts SaveFacts Orchestration UniqueFacts.
Local Open Scope py_scope.

#[global] Instance only_grown_stable w0 :
  stable (only_grown w0) (fun _ => only_grown w0).
Proof.
  split; try (intros; assumption).
  intros w Hw. unfold tick. destruct (fuse w) as [[|n]|]; exact Hw.
Qed.

#[global] Instance only_grown_store w0 : stable_store (only_grown w0).
Proof.
  split; try (intros; assumption).
  - intros c w (Hd & Hf & Hi). repeat split; try assumption.
    simpl. now apply prefix_app_r.
  - intros c w (Hd & Hf & Hi). repeat split; try assumption.
    simpl. now apply prefix_app_r.
  - intros f w (Hd & Hf & Hi). repeat split; try assumption.
    simpl. set_solver.
Qed.

Section Run.
Context {U : Unicode} (E : env).

(** What the download of a card and the writing of the metadata keep,
    a run keeps, however [main] ends. *)
Lemma main_keeps (I : world -> Prop) `{!stable I (fun _ => I)}
    parallel workers skip_count w :
  (forall f w, I w -> I (set_fuse f w)) ->
  (forall c, safe I (fun _ => I) (download_image E c)) ->
  safe I (fun _ => I) save_metadata ->
  I w -> I (main E parallel workers skip_count w).2.
Proof.
  intros Hfuse Hdl Hsave Hw.
  pose proof (safe_scrape_all_cards E I (fun _ => I) Hfuse Hdl Hsave
                parallel workers skip_count w Hw) as Hs.
  unfold main.
  destruct (scrape_all_cards E parallel workers skip_count w) as [[[]|e] w'];
    simpl; [ exact Hs | ].
  assert (forall m, I ((log m >> save_metadata) w').2) as Hh.
  { intros m. unfold bind, log, modify.
    pose proof (Hsave (add_event (Log m) w') (stable_event _ _ Hs)) as H.
    now destruct (save_metadata (add_event (Log m) w')) as [[[]|e'] w'']. }
  destruct e; apply Hh.
Qed.

(** X13.  In a run that downloads one card after the other (no
    [--parallel]), however it ends: no two entries of [downloaded_cards]
    have the same [local_path], and every [local_path] names a file of
    the images directory.  This holds for the cards of one set that
    have the same file name, for the same card found in two sets, and
    for files left by an earlier run. *)
Theorem sequential_paths_unique workers skip_count w :
  paths_unique w ->
  paths_unique (main E false workers skip_count w).2.
Proof.
  intros Hw.
  apply (main_keeps paths_unique false workers skip_count w (fun _ _ H => H)
           (download_image_unique E) save_metadata_unique Hw).
Qed.

(** X14.  A run never takes back what it has recorded: whatever the
    mode and however [main] ends, [downloaded_cards] and
    [failed_downloads] still start with the entries they had, in the
    same order, and every file of the images directory is still
    there. *)
Theorem run_only_appends parallel workers skip_count w :
  only_grown w (main E parallel workers skip_count w).2.
Proof.
  apply (main_keeps (only_grown w) parallel workers skip_count w
           (fun _ _ H => H)
           (safe_download_image E (only_grown w) (fun _ => only_grown w))
           (safe_save_metadata (only_grown w) (fun _ => only_grown w))).
  repeat split; reflexivity.
Qed.

End Run.

Lemma sequential_paths_unique_witness :
  paths_unique fresh
  /\ paths_unique (@main ascii_table two_sets false 5 false fresh).2.
Proof.
  assert (paths_unique fresh) as H by (split; constructor).
  split; [ exact H | ].
  exact (@sequential_paths_unique ascii_table two_sets 5 false fresh H).
Defined.

End RunFacts.

(** ** Ctrl-C between the write and the append *)

Module OrphanFacts.
Import PyStr Dom Runtime Scraper Hoare Stable Expect.
Import FilenameFacts.
Local Open Scope py_scope.

Section Orphan.
Context {U : Unicode} (E : env).

Lemma first_attempt_answered url r n w :
  fuse w = Some (S n) ->
  net E (requests w) url = Respond r ->
  get_page_content E url w
  = (Returned (Some r),
     add_event (Get url) (count_request (set_fuse (Some n) w))).
Proof.
  intros Hf Hn.
  unfold get_page_content, get_page_content_retries. cbn [seq get_page_loop].
  unfold bind at 1, get_page_attempt, try_except, bind at 1, session_get,
    bind at 1, tick.
  rewrite Hf. simpl. now rewrite Hn.
Qed.

(** X15.  In a run that downloads one card after the other, Ctrl-C
    that arrives after [download_image] has written the image and
    before it has appended the card (here: at the lock) leaves
    the file in the images directory and the card in neither list:
    [KeyboardInterrupt] is not an [Exception], so the handler that
    records a failure does not run.  The file is then known to no
    metadata, and a later download of the same card is saved under the
    next free name. *)
Theorem interrupt_after_write_leaves_file c r w :
  fuse w = Some 2 ->
  net E (requests w) (image_url c) = Respond r ->
  let f := unique_path (images w) (image_filename c) in
  writable E f = Written ->
  exists w',
    download_image E c w = (Raised KeyboardInterrupt, w')
    /\ images w' = {[f]} ∪ images w
    /\ same_lists w w'
    /\ fuse w' = None
    /\ unique_path (images w') (image_filename c) <> f.
Proof.
  intros Hf Hn f Hw.
  unfold download_image, try_except, bind at 1.
  rewrite (first_attempt_answered _ r 1 w Hf Hn).
  unfold bind at 1, gets. cbn [images add_event count_request set_fuse].
  fold f. unfold bind at 1, write_image, bind at 1, tick.
  cbn [fuse add_event count_request set_fuse]. rewrite Hw.
  unfold modify, bind at 1, with_lock, bind at 1, step, bind at 1, tick.
  cbn [fuse add_event add_image count_request set_fuse is_Exception].
  eexists. split; [ reflexivity | ].
  cbn [images downloaded_cards failed_downloads fuse].
  repeat split.
  intros Heq. cbn [images set_fuse add_event add_image count_request] in Heq.
  pose proof (unique_path_fresh ({[f]} ∪ images w) (image_filename c)) as Hfresh.
  rewrite Heq in Hfresh. set_solver.
Qed.

End Orphan.

Lemma interrupt_after_write_leaves_file_witness :
  exists w',
    @download_image ascii_table up pikachu
      (new_scraper ∅ None None None (Some 2))
    = (Raised KeyboardInterrupt, w')
    /\ images w' = {[ u "Pikachu_BS_58.jpg" ]}
    /\ downloaded_cards w' = [] /\ failed_downloads w' = [].
Proof.
  destruct (@interrupt_after_write_leaves_file ascii_table up pikachu empty_page
              (new_scraper ∅ None None None (Some 2)) eq_refl eq_refl eq_refl)
    as (w' & Hd & Hi & (Hdl & Hfl) & _).
  exists w'. split; [ exact Hd | ]. split; [ | split; assumption ].
  rewrite Hi. vm_compute. reflexivity.
Defined.

End OrphanFacts.

(** ** Any interleaving of the pool *)

Module PoolFacts.
Import PyStr Dom Runtime Scraper Expect.
Import Race.

Lemma unfinished_app l1 l2 : unfinished (l1 ++ l2) = unfinished l1 + unfinished l2.
Proof. unfold unfinished. now rewrite List.filter_app, length_app. Qed.

Lemma unfinished_insert pool i t t' :
  pool !! i = Some t ->
  unfinished (<[i := t']> pool) + unfinished [t]
  = unfinished pool + unfinished [t'].
Proof.
  intros Hi. rewrite <- (take_drop_middle pool i t Hi) at 2.
  rewrite insert_take_drop by (now apply lookup_lt_Some in Hi).
  rewrite !unfinished_app.
  change (t' :: drop (S i) pool) with ([t'] ++ drop (S i) pool).
  change (t :: drop (S i) pool) with ([t] ++ drop (S i) pool).
  rewrite !unfinished_app. lia.
Qed.

(** One step of one worker. *)
Lemma step_worker_keeps s t :
  Forall (fun p => p ∈ dir s) (written s) ->
  let s' := (step_worker s t).1 in
  let t' := (step_worker s t).2 in
  dir s ⊆ dir s'
  /\ written s `prefix_of` written s'
  /\ Forall (fun p => p ∈ dir s') (written s')
  /\ length (written s') + unfinished [t'] = length (written s) + unfinished [t].
Proof.
  intros Hs. unfold step_worker. destruct (at_ t) eqn:Hat.
  - case_bool_decide; simpl; unfold unfinished; simpl; rewrite Hat;
      repeat split; try reflexivity; assumption.
  - simpl. unfold unfinished. simpl. rewrite Hat. repeat split.
    + set_solver.
    + now apply prefix_app_r.
    + apply Forall_app. split.
      * eapply Forall_impl; [ exact Hs | ]. intros p Hp. set_solver.
      * constructor; [ set_solver | constructor ].
    + rewrite length_app. simpl. lia.
  - simpl. unfold unfinished. simpl. rewrite Hat.
    repeat split; try reflexivity; assumption.
Qed.

(** X16.  Whatever the order in which the workers of a pool take their
    steps through the duplicate-filename loop: a worker records one path
    and only after it has written the file, so that every recorded path
    names a file of the images directory, no file disappears, the paths
    recorded before stay where they were, and the number of recorded
    paths grows by one for each worker that finishes.  (A race can make
    two recorded paths equal; it cannot lose or invent one.) *)
Theorem any_schedule_records_written_files schedule : forall s pool,
  Forall (fun p => p ∈ dir s) (written s) ->
  let s' := (run schedule s pool).1 in
  let pool' := (run schedule s pool).2 in
  dir s ⊆ dir s'
  /\ written s `prefix_of` written s'
  /\ Forall (fun p => p ∈ dir s') (written s')
  /\ length (written s') + unfinished pool' = length (written s) + unfinished pool
  /\ length pool' = length pool.
Proof.
  induction schedule as [|i schedule IH]; intros s pool Hs; cbn [run].
  - simpl. repeat split; try reflexivity; assumption.
  - destruct (pool !! i) as [t|] eqn:Hi; [ | now apply IH ].
    pose proof (step_worker_keeps s t Hs) as (H1 & H2 & H3 & H4).
    destruct (step_worker s t) as [s1 t1]. simpl in *.
    specialize (IH s1 (<[i := t1]> pool) H3). simpl in IH.
    destruct IH as (I1 & I2 & I3 & I4 & I5).
    pose proof (unfinished_insert pool i t t1 Hi) as Hu.
    repeat split.
    + set_solver.
    + now transitivity (written s1).
    + exact I3.
    + lia.
    + now rewrite I5, length_insert.
Qed.

Lemma any_schedule_records_written_files_witness :
  Forall (fun p => p ∈ dir (both_exist_first (u "Pikachu_BS_58.jpg")).1)
         (written (both_exist_first (u "Pikachu_BS_58.jpg")).1)
  /\ length (written (both_exist_first (u "Pikachu_BS_58.jpg")).1)
     + unfinished (both_exist_first (u "Pikachu_BS_58.jpg")).2 = 2.
Proof.
  destruct (any_schedule_records_written_files [0; 1; 0; 1]
              {| dir := ∅; written := [] |}
              [start (u "Pikachu_BS_58.jpg"); start (u "Pikachu_BS_58.jpg")]
              (List.Forall_nil _)) as (_ & _ & H3 & H4 & _).
  split; [ exact H3 | exact H4 ].
Defined.

End PoolFacts.

(** ** --skip-count *)

Module SkipFacts.
Import PyStr Dom Runtime Scraper Hoare Stable Expect.
Import ScanFacts CostFacts.
Local Open Scope py_scope.

Section Skip.
Context {U : Unicode} (E : env).

(** The download phase does not look at the counts. *)
Lemma process_set_ignores_count parallel max_workers si n m w :
  process_set E parallel max_workers (si, n) w
  = process_set E parallel max_workers (si, m) w.
Proof. reflexivity. Qed.

Lemma download_phase_ignores_counts parallel max_workers set_links :
  forall counts w,
    length counts = length set_links ->
    for_each (process_set E parallel max_workers) (zip set_links counts) w
    = for_each (process_set E parallel max_workers)
        (List.map (fun si => (si, 0)) set_links) w.
Proof.
  induction set_links as [|si rest IH]; intros [|n counts] w Hlen;
    try discriminate; [ reflexivity | ].
  injection Hlen as Hlen. cbn [zip zip_with List.map for_each]. unfold bind.
  rewrite (process_set_ignores_count parallel max_workers si n 0 w).
  destruct (process_set E parallel max_workers (si, 0) w) as [[[]|e] w1];
    [ | reflexivity ].
  now apply IH.
Qed.

(** X17.  With [--skip-count] the catalog is fetched and nothing is
    counted: discovery costs at most 3 requests and changes neither the
    accumulators nor the files.  The run stops before the download
    phase only when the catalog yields no set; otherwise
    [total_cards_expected] is 0 and the run is the download phase over
    the sets of the catalog, in catalog order, followed by the final
    save, also when no set has a card.  The counts of the other mode
    are for the progress display only: the download phase over counted
    sets is the download phase over the same sets without counts. *)
Theorem skip_count_goes_straight_to_downloads parallel max_workers w :
  requests (discover E true w).2 <= requests w + 3
  /\ same_store w (discover E true w).2
  /\ match extract_set_links E w with
     | (Returned [], w0) =>
         scrape_all_cards E parallel max_workers true w
         = (Returned tt, add_event (Log NoSetLinksFound) w0)
     | (Returned set_links, w0) =>
         total_cards_expected (discover E true w).2 = 0
         /\ scrape_all_cards E parallel max_workers true w
            = (for_each (process_set E parallel max_workers)
                 (List.map (fun si => (si, 0)) set_links)
               >> save_metadata) (set_expected 0 w0)
     | (Raised e, w0) =>
         scrape_all_cards E parallel max_workers true w = (Raised e, w0)
     end
  /\ (forall set_links counts w',
        length counts = length set_links ->
        for_each (process_set E parallel max_workers) (zip set_links counts) w'
        = for_each (process_set E parallel max_workers)
            (List.map (fun si => (si, 0)) set_links) w').
Proof.
  split; [ | split; [ | split ] ].
  - pose proof (extract_set_links_requests E w) as H.
    unfold discover. cbn [negb]. unfold bind.
    destruct (extract_set_links E w) as [[[|si rest]|e] w0]; exact H.
  - pose proof (safe_discover E (same_store w) _ true w) as H.
    destruct (discover E true w) as [[d|e] w']; apply H; now repeat split.
  - unfold scrape_all_cards, discover. cbn [negb]. unfold bind.
    destruct (extract_set_links E w) as [[[|si rest]|e] w0]; try reflexivity.
    now split.
  - intros set_links counts w' Hlen.
    now apply download_phase_ignores_counts.
Qed.

End Skip.
End SkipFacts.

(** ** The expected total *)

Module TotalFacts.
Import PyStr Dom Runtime Scraper Hoare Stable Store Expect.
Import FetchFacts ScanFacts DownloadFacts SaveFacts Orchestration.
Import FrameFacts BatchFacts.
Local Open Scope py_scope.

Lemma expected_kept_by_writes k : kept_by_writes (expected_is k).
Proof. repeat split; intros; assumption. Qed.

Lemma expected_kept_by_requests k : kept_by_requests (expected_is k).
Proof. intros w Hw. exact Hw. Qed.

Section Total.
Context {U : Unicode} (E : env).

Lemma download_phase_keeps_expected parallel workers set_counts w :
  total_cards_expected
    ((for_each (process_set E parallel workers) set_counts >> save_metadata) w).2
  = total_cards_expected w.
Proof.
  set (k := total_cards_expected w).
  assert (keeps (expected_is k)
            (for_each (process_set E parallel workers) set_counts
             >> save_metadata)) as H.
  { apply keeps_bind.
    - apply keeps_for_each. intros entry.
      apply keeps_process_set;
        [ apply expected_kept_by_writes | apply expected_kept_by_requests ].
    - intros []. apply keeps_save_metadata, expected_kept_by_writes. }
  specialize (H w eq_refl).
  now destruct ((for_each _ set_counts >> save_metadata) w) as [[[]|e] w'].
Qed.

Lemma handler_keeps_expected m w :
  total_cards_expected ((log m >> save_metadata) w).2 = total_cards_expected w.
Proof.
  set (k := total_cards_expected w).
  assert (keeps (expected_is k) (log m >> save_metadata)) as H.
  { apply keeps_bind; [ apply keeps_log, expected_kept_by_writes | ].
    intros []. apply keeps_save_metadata, expected_kept_by_writes. }
  specialize (H w eq_refl).
  now destruct ((log m >> save_metadata) w) as [[[]|e] w'].
Qed.

(** X18.  [total_cards_expected] is assigned by the head of
    [scrape_all_cards] and by nothing else: whatever the mode and
    however the run ends, its value when [main] is over is the one it
    had when the head was over (the pre-count total, or 0 with
    [--skip-count]). *)
Theorem expected_total_is_set_once parallel workers skip_count w :
  total_cards_expected (main E parallel workers skip_count w).2
  = total_cards_expected (discover E skip_count w).2.
Proof.
  unfold main, scrape_all_cards, bind.
  destruct (discover E skip_count w) as [[[set_counts|]|e] w1]; simpl.
  - pose proof (download_phase_keeps_expected parallel workers set_counts w1)
      as H. unfold bind in H.
    destruct (for_each (process_set E parallel workers) set_counts w1)
      as [[[]|e] w2]; simpl in H.
    + destruct (save_metadata w2) as [[[]|e] w3] eqn:Hs; simpl in H;
        [ exact H | ].
      rewrite <- H. destruct e; apply handler_keeps_expected.
    + rewrite <- H. destruct e; apply handler_keeps_expected.
  - reflexivity.
  - destruct e; apply handler_keeps_expected.
Qed.

(** *** A run that nothing disturbs *)







Section Steady.
Hypothesis Hsteady : steady E.










End Steady.
End Total.


End TotalFacts.
